(** * DynamO: the simulation container, cell lists and event handlers

    A shallow embedding of the parts of the DynamO event-driven molecular
    dynamics engine that its specification makes claims about:

    - [Sim]: [Simulation] of [simulation.cpp] (interaction dispatch, the
      checks of [initialise], the units of the configuration file,
      replica exchange, the step loop);
    - [SphericalTop]: the XML load and save of [SpSphericalTop];
    - [Compression]: [IPCompression::limitPackingFraction];
    - [ParabolaSentinel]: [GParabolaSentinel::runEvent];
    - [Dumbbells]: [IDumbbells::runEvent] and its capture map;
    - [Cells]: the intrusive doubly-linked cell lists of [CGCells].

    Conventions. A C++ [double] is a real number ([R]); NaN is left out
    and the infinite [HUGE_VAL] is a constructor of its own where the
    code tests for it. [size_t] counters are [N], with the wrap-around
    at 64 bits written where the source adds; [int] indices are [Z]. A
    call that may throw returns an [outcome]; a member function that also
    changes the simulation it is called on is a function from the state
    to an outcome and the state it leaves. Classes that are outside these
    units (scheduler, Liouvillean, output plugins, ...) appear as type
    classes of the methods called on them. *)

From Stdlib Require Import ZArith NArith Reals Lra Lia.
From stdpp Require Import base option list gmap strings pretty.

Local Open Scope string_scope.
Local Open Scope list_scope.

(** ** Shared vocabulary: vectors, particles, events *)

(** A C++ [double] used as a time: a real number or the infinite
    [HUGE_VAL]. *)
Variant dtime : Type :=
| Finite (t : R)
| HUGE_VAL.

(** [EEventType], as far as the modelled code names its values. *)
Variant EEventType : Type :=
| NONE | CELL | GLOBAL | INTERACTION | SYSTEM | LOCAL
| CORE | WELL_IN | WELL_OUT | BOUNCE | VIRTUAL_PARABOLA.

Definition NDIM : nat := 3.

Record Vector : Type := mkVector { vx : R; vy : R; vz : R }.

(** [v[i]] for [i < NDIM]. *)
Definition coord (v : Vector) (i : nat) : R :=
  match i with
  | 0%nat => vx v
  | 1%nat => vy v
  | _ => vz v
  end.

(** [v *= k], [v /= k] and the dot product [a | b]. *)
Definition vscale (v : Vector) (k : R) : Vector :=
  mkVector (vx v * k) (vy v * k) (vz v * k).
Definition vdiv (v : Vector) (k : R) : Vector :=
  mkVector (vx v / k) (vy v / k) (vz v / k).
Definition vdot (a b : Vector) : R :=
  (vx a * vx b + vy a * vy b + vz a * vz b)%R.

Record Particle : Type := mkParticle {
  getID : N;
  getPosition : Vector;
  getVelocity : Vector
}.

(** What a stream insertion [<<] adds to an exception or a log line. *)
Variant fragment : Type :=
| Str (s : string)
| Cnt (n : N)
| Dbl (r : R).

(** [magnet::exception], which derives from [std::exception]: the
    fragments streamed into [M_throw()], in order. *)
Record exception : Type := M_throw { what : list fragment }.

(** The outcome of a call: it returns or it throws. *)
Inductive outcome (A : Type) : Type :=
| Returns (a : A)
| Throws (e : exception).
Arguments Returns {A} a.
Arguments Throws {A} e.

Definition threw {A} (o : outcome A) : Prop := ∃ e, o = Throws e.

(** ** The simulation container ([simulation.cpp]) *)

Module Sim.

(** [IntEvent]: the pair, the time to the event, its type. *)
Record IntEvent : Type := mkIntEvent {
  ev_p1 : N;
  ev_p2 : N;
  ev_dt : dtime;
  ev_type : EEventType
}.

(** The [Interaction] interface, as the container uses it. *)
Record Interaction : Type := mkInteraction {
  intName : string;
  isInteraction : Particle → Particle → bool;
  int_getEvent : Particle → Particle → IntEvent;
  maxIntDist : R;
  getExcludedVolume : N → R
}.

(** The [Species] interface. *)
Record Species : Type := mkSpecies {
  spName : string;
  isSpecies : Particle → bool;
  getCount : N;
  getMass : N → R
}.

(** The boundary conditions; only [BCPeriodic] passes
    [dynamic_pointer_cast<BCPeriodic>]. *)
Variant BoundaryCondition : Type :=
| BCPeriodic | BCNone | BCLeesEdwards | BCPeriodicExceptX | BCPeriodicXOnly.

Definition is_BCPeriodic (bc : BoundaryCondition) : bool :=
  match bc with BCPeriodic => true | _ => false end.

(** [Units], modelled from the spec: the three base scales; the area
    scale derives from the length. *)
Record Units : Type := mkUnits {
  unitLength : R;
  unitTime : R;
  unitMass : R
}.
Definition unitArea (u : Units) : R := (unitLength u * unitLength u)%R.

(** [ESimulationStatus], in declaration order. *)
Variant ESimulationStatus : Type :=
| START | SPECIES_INIT | DYNAMICS_INIT | INTERACTION_INIT | LOCAL_INIT
| GLOBAL_INIT | SYSTEM_INIT | ENSEMBLE_INIT | SCHEDULER_INIT
| OUTPUTPLUGIN_INIT | INITIALISED.

Definition status_rank (st : ESimulationStatus) : N :=
  match st with
  | START => 0 | SPECIES_INIT => 1 | DYNAMICS_INIT => 2
  | INTERACTION_INIT => 3 | LOCAL_INIT => 4 | GLOBAL_INIT => 5
  | SYSTEM_INIT => 6 | ENSEMBLE_INIT => 7 | SCHEDULER_INIT => 8
  | OUTPUTPLUGIN_INIT => 9 | INITIALISED => 10
  end.

(** The polymorphic components whose classes are outside this unit:
    the container holds them and calls their virtual methods. *)
Class Components : Type := {
  Dynamics : Type;
  Scheduler : Type;
  System : Type;
  Local : Type;
  Global : Type;
  OutputPlugin : Type;
  Ensemble : Type
}.

Record Simulation `{Components} : Type := mkSimulation {
  systemTime : R;
  eventCount : N;
  endEventCount : N;
  eventPrintInterval : N;
  nextPrintEvent : N;
  _nextPrint : N;
  primaryCellSize : Vector;
  lastRunMFT : R;
  status : ESimulationStatus;
  units : Units;
  particles : list Particle;
  species : list Species;
  BCs : BoundaryCondition;
  dynamics : Dynamics;
  interactions : list Interaction;
  locals : list Local;
  globals : list Global;
  systems : list System;
  ensemble : Ensemble;
  ptrScheduler : Scheduler;
  outputPlugins : list OutputPlugin
}.
Arguments mkSimulation {_}.

Section Container.
Context `{Components}.

(** Assignments to single members. *)
Definition set__nextPrint x (s : Simulation) : Simulation :=
  mkSimulation (systemTime s) (eventCount s) (endEventCount s)
    (eventPrintInterval s) (nextPrintEvent s) x (primaryCellSize s)
    (lastRunMFT s) (status s) (units s) (particles s) (species s) (BCs s)
    (dynamics s) (interactions s) (locals s) (globals s) (systems s)
    (ensemble s) (ptrScheduler s) (outputPlugins s).

Definition set_primaryCellSize x (s : Simulation) : Simulation :=
  mkSimulation (systemTime s) (eventCount s) (endEventCount s)
    (eventPrintInterval s) (nextPrintEvent s) (_nextPrint s) x
    (lastRunMFT s) (status s) (units s) (particles s) (species s) (BCs s)
    (dynamics s) (interactions s) (locals s) (globals s) (systems s)
    (ensemble s) (ptrScheduler s) (outputPlugins s).

Definition set_lastRunMFT x (s : Simulation) : Simulation :=
  mkSimulation (systemTime s) (eventCount s) (endEventCount s)
    (eventPrintInterval s) (nextPrintEvent s) (_nextPrint s)
    (primaryCellSize s) x (status s) (units s) (particles s) (species s)
    (BCs s) (dynamics s) (interactions s) (locals s) (globals s) (systems s)
    (ensemble s) (ptrScheduler s) (outputPlugins s).

Definition set_status x (s : Simulation) : Simulation :=
  mkSimulation (systemTime s) (eventCount s) (endEventCount s)
    (eventPrintInterval s) (nextPrintEvent s) (_nextPrint s)
    (primaryCellSize s) (lastRunMFT s) x (units s) (particles s) (species s)
    (BCs s) (dynamics s) (interactions s) (locals s) (globals s) (systems s)
    (ensemble s) (ptrScheduler s) (outputPlugins s).

Definition set_globals x (s : Simulation) : Simulation :=
  mkSimulation (systemTime s) (eventCount s) (endEventCount s)
    (eventPrintInterval s) (nextPrintEvent s) (_nextPrint s)
    (primaryCellSize s) (lastRunMFT s) (status s) (units s) (particles s)
    (species s) (BCs s) (dynamics s) (interactions s) (locals s) x
    (systems s) (ensemble s) (ptrScheduler s) (outputPlugins s).

Definition set_systems x (s : Simulation) : Simulation :=
  mkSimulation (systemTime s) (eventCount s) (endEventCount s)
    (eventPrintInterval s) (nextPrintEvent s) (_nextPrint s)
    (primaryCellSize s) (lastRunMFT s) (status s) (units s) (particles s)
    (species s) (BCs s) (dynamics s) (interactions s) (locals s) (globals s)
    x (ensemble s) (ptrScheduler s) (outputPlugins s).

Definition set_outputPlugins x (s : Simulation) : Simulation :=
  mkSimulation (systemTime s) (eventCount s) (endEventCount s)
    (eventPrintInterval s) (nextPrintEvent s) (_nextPrint s)
    (primaryCellSize s) (lastRunMFT s) (status s) (units s) (particles s)
    (species s) (BCs s) (dynamics s) (interactions s) (locals s) (globals s)
    (systems s) (ensemble s) (ptrScheduler s) x.

(** A member function: it runs on the simulation it is called on, may
    change it, and returns or throws. The state at a throw is the state
    the callee left behind. *)
Definition M (A : Type) : Type := Simulation → outcome A * Simulation.

#[export] Instance M_ret : MRet M := λ A a s, (Returns a, s).
#[export] Instance M_bind : MBind M := λ A B f m s,
  match m s with
  | (Returns a, s') => f a s'
  | (Throws e, s') => (Throws e, s')
  end.

Definition throw {A} (msg : list fragment) : M A :=
  λ s, (Throws (M_throw msg), s).
Definition get : M Simulation := λ s, (Returns s, s).
Definition modify (f : Simulation → Simulation) : M unit :=
  λ s, (Returns tt, f s).

(** [try { body } catch (std::exception& cep) { handler }]. *)
Definition try_catch {A} (body : M A) (handler : exception → M A) : M A :=
  λ s,
    match body s with
    | (Returns a, s') => (Returns a, s')
    | (Throws cep, s') => handler cep s'
    end.

(** A range-for over a container, running [body] on each element. *)
Fixpoint for_each {A} (body : A → M unit) (l : list A) : M unit :=
  match l with
  | [] => mret tt
  | a :: rest => body a ;; for_each body rest
  end.

(** The same with the running index of [ptr->initialise(ID++)]. *)
Fixpoint for_each_ID {A} (body : A → N → M unit) (ID : N) (l : list A)
  : M unit :=
  match l with
  | [] => mret tt
  | a :: rest => body a ID ;; for_each_ID body (N.succ ID) rest
  end.

End Container.

(** The virtual methods of the components, as the container calls them:
    each runs on the calling simulation. *)
Class Behaviour `{Components} : Type := {
  Species_initialise : Species → M unit;
  Dynamics_initialise : M unit;
  Interaction_initialise : Interaction → N → M unit;
  Local_initialise : Local → N → M unit;
  Global_initialise : Global → N → M unit;
  System_initialise : System → N → M unit;
  Ensemble_initialise : M unit;
  Scheduler_initialise : M unit;
  OutputPlugin_initialise : OutputPlugin → M unit;
  (** [ptrScheduler == NULL] *)
  Scheduler_is_null : Scheduler → bool;
  (** [new GPBCSentinel(this, "PBCSentinel")] *)
  new_GPBCSentinel : Global;
  (** [dynamic_pointer_cast<OPTicker>(Ptr)] succeeds *)
  is_OPTicker : OutputPlugin → bool;
  System_getName : System → string;
  (** [new SysTicker(this, lastRunMFT, "SystemTicker")] *)
  new_SysTicker : R → System;
  (** [std::sort] of the plugins under their [operator<] *)
  sort_outputPlugins : list OutputPlugin → list OutputPlugin;
  (** [ptrScheduler->runNextEvent()] *)
  Scheduler_runNextEvent : M unit;
  OutputPlugin_periodicOutput : OutputPlugin → M unit;
  (** [dynamics->updateAllParticles()]: streams every particle to the
      current time. *)
  Dynamics_updateAllParticles : Dynamics → list Particle → list Particle;
  Dynamics_replicaExchange : Dynamics → Dynamics → Dynamics * Dynamics;
  System_replicaExchange : System → System → System * System;
  OutputPlugin_replicaExchange :
    OutputPlugin → OutputPlugin → OutputPlugin * OutputPlugin;
  OutputPlugin_temperatureRescale : R → OutputPlugin → OutputPlugin;
  Scheduler_rescaleTimes : R → Scheduler → Scheduler;
  (** [rebuildSystemEvents()] re-pushes the events of the simulation's
      [systems]. *)
  Scheduler_rebuildSystemEvents : list System → Scheduler → Scheduler;
  (** [getEnsembleVals()[2]] *)
  Ensemble_val2 : Ensemble → R;
  Ensemble_swap : Ensemble → Ensemble → Ensemble * Ensemble
}.

Section Dispatch.
Context `{Components}.

(** [Simulation::getInteraction]: the range-for returns at the first
    interaction that accepts the pair; falling off the loop throws. *)
Fixpoint getInteraction_loop (l : list Interaction) (p1 p2 : Particle)
  : outcome Interaction :=
  match l with
  | [] =>
      Throws (M_throw
        [Str "Could not find an Interaction between particles ";
         Cnt (getID p1); Str " and "; Cnt (getID p2);
         Str ". All particle pairings must have a corresponding Interaction defined."])
  | ptr :: rest =>
      if isInteraction ptr p1 p2 then Returns ptr
      else getInteraction_loop rest p1 p2
  end.

Definition getInteraction (s : Simulation) (p1 p2 : Particle)
  : outcome Interaction :=
  getInteraction_loop (interactions s) p1 p2.

(** [Simulation::getEvent]: the same loop, returning the event the first
    accepting interaction computes. *)
Fixpoint getEvent_loop (l : list Interaction) (p1 p2 : Particle)
  : outcome IntEvent :=
  match l with
  | [] =>
      Throws (M_throw [Str "Could not find the right interaction to test for"])
  | ptr :: rest =>
      if isInteraction ptr p1 p2 then Returns (int_getEvent ptr p1 p2)
      else getEvent_loop rest p1 p2
  end.

Definition getEvent (s : Simulation) (p1 p2 : Particle) : outcome IntEvent :=
  getEvent_loop (interactions s) p1 p2.

(** [Simulation::getLongestInteraction]. *)
Definition getLongestInteraction (s : Simulation) : R :=
  fold_left
    (λ maxval ptr,
       if Rgt_dec (maxIntDist ptr) maxval then maxIntDist ptr else maxval)
    (interactions s) 0%R.

(** [ptr] is the first interaction of [l], in list order, whose selector
    accepts the pair. *)
Definition first_match (l : list Interaction) (p1 p2 : Particle)
    (ptr : Interaction) : Prop :=
  ∃ before after,
    l = before ++ ptr :: after
    ∧ Forall (λ q, isInteraction q p1 p2 = false) before
    ∧ isInteraction ptr p1 p2 = true.

End Dispatch.

(** The newline character of the messages. *)
Definition endl : string := String (Ascii.ascii_of_nat 10) EmptyString.

(** [size_t] and [unsigned long] arithmetic wraps at 64 bits,
    [unsigned int] arithmetic at 32. *)
Definition wrap64 (n : N) : N := (n mod 2 ^ 64)%N.
Definition wrap32 (n : N) : N := (n mod 2 ^ 32)%N.

Section Initialise.
Context `{Components} `{!Behaviour}.

(** [N()], the number of particles. *)
Definition N_particles (s : Simulation) : N := N.of_nat (length (particles s)).

(** The inner loop of the species check: [count++; break] at the first
    species that owns the particle. *)
Fixpoint species_count (l : list Species) (part : Particle) (count : N) : N :=
  match l with
  | [] => count
  | ptr :: rest =>
      if isSpecies ptr part then wrap32 (count + 1)
      else species_count rest part count
  end.

Definition check_species_of (part : Particle) : M unit :=
  s ← get;
  let count := species_count (species s) part 0 in
  if (count <? 1)%N then
    throw [Str "Particle ID="; Cnt (getID part); Str " has no species"]
  else if (1 <? count)%N then
    throw [Str "Particle ID="; Cnt (getID part);
           Str " has more than one species"]
  else mret tt.

Definition check_species_total : M unit :=
  s ← get;
  let tot := fold_left (λ tot ptr, wrap64 (tot + getCount ptr)) (species s) 0%N in
  let n := N_particles s in
  let discrepancy := wrap64 (tot + 2 ^ 64 - n) in
  if (tot <? n)%N then
    throw [Str "The particle count according to the species definition is too low";
           Str endl; Str "discrepancy = "; Cnt discrepancy;
           Str endl; Str "N = "; Cnt n]
  else if (n <? tot)%N then
    throw [Str "The particle count according to the species definition is too high";
           Str endl; Str "discrepancy = "; Cnt discrepancy;
           Str endl; Str "N = "; Cnt n]
  else mret tt.

(** [try { getInteraction(particle, particle); } catch (...) { M_throw() ... }] *)
Definition check_self_interaction (particle : Particle) : M unit :=
  s ← get;
  match getInteraction s particle particle with
  | Returns _ => mret tt
  | Throws _ =>
      throw [Str "The particle (ID="; Cnt (getID particle);
             Str ") does not have a self Interaction defined. Self Interactions are not used for the dynamics of the system, but are used to draw/visualise the particles, as well as calculate the excluded volume and other properties. Please add a self-Interaction"]
  end.

(** The inner loop [for (ID2 = ID1; ID2 < N(); ++ID2)] over the particles
    from index [ID2] on. *)
Fixpoint check_pairs_from (p1 : Particle) (ID1 ID2 : N) (l : list Particle)
  : M unit :=
  match l with
  | [] => mret tt
  | p2 :: rest =>
      s ← get;
      match getInteraction s p1 p2 with
      | Returns _ => check_pairs_from p1 ID1 (N.succ ID2) rest
      | Throws _ =>
          throw [Str "There is no Interaction defined between particle ID=";
                 Cnt ID1; Str " and particle ID="; Cnt ID2;
                 Str ". Each particle pairing must have an Interaction defined"]
      end
  end.

(** The outer loop [for (ID1 = 0; ID1 < N(); ++ID1)]. *)
Fixpoint check_pairs (ID1 : N) (l : list Particle) : M unit :=
  match l with
  | [] => mret tt
  | p1 :: rest =>
      check_pairs_from p1 ID1 ID1 (p1 :: rest) ;;
      check_pairs (N.succ ID1) rest
  end.

(** The periodic-image check: under [BCPeriodic], every side of the
    primary image is compared with twice the longest interaction. *)
Definition check_primary_image_dim (max_interaction_dist : R) (i : nat)
  : M unit :=
  s ← get;
  if Rle_dec (coord (primaryCellSize s) i) (2 * max_interaction_dist) then
    throw [Str "When using periodic boundary conditions, the size of the primary image must be at least 2x the maximum interaction distance in all dimensions, otherwise one particle can interact with multiple periodic images of another particle.";
           Str endl; Str "primaryCellSize["; Cnt (N.of_nat i); Str "] = ";
           Dbl (coord (primaryCellSize s) i);
           Str endl; Str "Longest interaction distance = ";
           Dbl max_interaction_dist]
  else mret tt.

Definition check_primary_image : M unit :=
  s ← get;
  if is_BCPeriodic (BCs s) then
    let max_interaction_dist := getLongestInteraction s in
    for_each (check_primary_image_dim max_interaction_dist) (seq 0 NDIM)
  else mret tt.

(** [Simulation::addSystemTicker]. *)
Definition addSystemTicker : M unit :=
  s ← get;
  if existsb (λ ptr, String.eqb (System_getName ptr) "SystemTicker") (systems s)
  then throw [Str "System Ticker already exists"]
  else modify (λ s, set_systems (systems s ++ [new_SysTicker (lastRunMFT s)]) s).

(** [Simulation::initialise], up to the periodic-image check. *)
Definition initialise_to_interactions : M unit :=
  s ← get;
  (if match status s with START => false | _ => true end
   then throw [Str "Sim initialised at wrong time"] else mret tt) ;;
  s ← get; for_each Species_initialise (species s) ;;
  s ← get; for_each check_species_of (particles s) ;;
  check_species_total ;;
  modify (set_status SPECIES_INIT) ;;
  s ← get; for_each check_self_interaction (particles s) ;;
  Dynamics_initialise ;;
  modify (set_status DYNAMICS_INIT) ;;
  s ← get; check_pairs 0 (particles s) ;;
  s ← get; for_each_ID Interaction_initialise 0 (interactions s).

(** [Simulation::initialise], after the periodic-image check. *)
Definition initialise_from_interactions : M unit :=
  modify (set_status INTERACTION_INIT) ;;
  s ← get; for_each_ID Local_initialise 0 (locals s) ;;
  modify (set_status LOCAL_INIT) ;;
  s ← get;
  (if is_BCPeriodic (BCs s)
   then modify (λ s, set_globals (globals s ++ [new_GPBCSentinel]) s)
   else mret tt) ;;
  s ← get; for_each_ID Global_initialise 0 (globals s) ;;
  modify (set_status GLOBAL_INIT) ;;
  s ← get;
  (if existsb is_OPTicker (outputPlugins s) then addSystemTicker else mret tt) ;;
  s ← get; for_each_ID System_initialise 0 (systems s) ;;
  modify (set_status SYSTEM_INIT) ;;
  Ensemble_initialise ;;
  modify (set_status ENSEMBLE_INIT) ;;
  s ← get;
  (if Scheduler_is_null (ptrScheduler s)
   then throw [Str "The scheduler has not been set!"] else mret tt) ;;
  s ← get;
  (if (endEventCount s =? 0)%N then mret tt else Scheduler_initialise) ;;
  modify (set_status SCHEDULER_INIT) ;;
  modify (λ s, set_outputPlugins (sort_outputPlugins (outputPlugins s)) s) ;;
  s ← get; for_each OutputPlugin_initialise (outputPlugins s) ;;
  modify (set_status OUTPUTPLUGIN_INIT) ;;
  modify (λ s, set__nextPrint (wrap64 (eventCount s + eventPrintInterval s)) s) ;;
  modify (set_status INITIALISED).

Definition initialise : M unit :=
  initialise_to_interactions ;;
  check_primary_image ;;
  initialise_from_interactions.

End Initialise.

(** *** Configuration load and save: the container's own quantities *)

(** The configuration file version. *)
Definition configFileVersion : string := "1.5.0".

(** The parts of the document the container reads itself: the version
    attribute, the [lastMFT] attribute ([None] when it is absent or does
    not convert to a [double]) and the [SimulationSize] node. *)
Record Document : Type := mkDocument {
  doc_version : string;
  doc_lastMFT : option R;
  doc_SimulationSize : Vector
}.

Section XML.
Context `{Components}.

(** [loadComponents] is the loading of the properties and the component
    factories ([Species::getClass], ..., [Scheduler::getClass]);
    [loadEnsemble] the rescaling of the loaded properties and
    [Ensemble::loadEnsemble]. *)
Variable loadComponents : Document → M unit.
Variable loadEnsemble : M unit.

(** [Simulation::loadXMLfile], once the file is in memory and parsed. *)
Definition loadXMLfile (doc : Document) : M unit :=
  s ← get;
  (if match status s with START => false | _ => true end
   then throw [Str "Loading config at wrong time, status = ";
               Cnt (status_rank (status s))]
   else mret tt) ;;
  (if String.eqb (doc_version doc) configFileVersion then mret tt
   else throw [Str "This version of the config file is obsolete";
               Str endl; Str "The current version is "; Str configFileVersion;
               Str endl; Str "Please look at the XMLFILE.VERSION file in the root directory of the dynamo source."]) ;;
  modify (λ s, match doc_lastMFT doc with
               | Some mft => set_lastRunMFT mft s
               | None => s
               end) ;;
  modify (set_primaryCellSize (doc_SimulationSize doc)) ;;
  modify (λ s, set_primaryCellSize
                 (vdiv (primaryCellSize s) (unitLength (units s))) s) ;;
  loadComponents doc ;;
  modify (λ s, set_lastRunMFT (lastRunMFT s * unitTime (units s)) s) ;;
  loadEnsemble.

(** What [Simulation::writeXMLfile] writes for the same quantities.
    [mft] is [getOutputPlugin<OPMisc>()->getMFT()]: [None] without such a
    plugin, [Some HUGE_VAL] for a value that is infinite or not a number. *)
Definition writeXMLfile (mft : option dtime) (s : Simulation) : Document :=
  mkDocument
    configFileVersion
    match mft with
    | Some (Finite mft) => Some mft
    | Some HUGE_VAL => Some (lastRunMFT s)
    | None => None
    end
    (vdiv (primaryCellSize s) (unitLength (units s))).

End XML.

(** *** Volumes, replica exchange, the step loop *)

Section Running.
Context `{Components} `{!Behaviour}.

(** [Simulation::getSimVolume]. *)
Definition getSimVolume (s : Simulation) : R :=
  fold_left (λ vol iDim, (vol * coord (primaryCellSize s) iDim)%R)
    (seq 0 NDIM) 1%R.

(** [Simulation::getPackingFraction]; [getInteraction] may throw. *)
Fixpoint excluded_volume_loop (s : Simulation) (l : list Particle)
    (volume : R) : outcome R :=
  match l with
  | [] => Returns volume
  | particle :: rest =>
      match getInteraction s particle particle with
      | Returns ptr =>
          excluded_volume_loop s rest
            (volume + getExcludedVolume ptr (getID particle))%R
      | Throws e => Throws e
      end
  end.

Definition getPackingFraction (s : Simulation) : outcome R :=
  match excluded_volume_loop s (particles s) 0%R with
  | Returns volume => Returns (volume / getSimVolume s)%R
  | Throws e => Throws e
  end.

(** [part.getVelocity() *= scale] for every particle. *)
Definition scale_velocities (scale : R) (l : list Particle) : list Particle :=
  map (λ part,
         mkParticle (getID part) (getPosition part)
           (vscale (getVelocity part) scale)) l.

(** Modelled from the spec: the total kinetic energy, the sum over the
    particles of half the mass times the squared velocity; [mass] gives
    the mass of a particle by its ID. *)
Definition kineticEnergy (mass : N → R) (l : list Particle) : R :=
  fold_right
    (λ part sum,
       (1 / 2 * mass (getID part)
        * vdot (getVelocity part) (getVelocity part) + sum)%R)
    0%R l.

(** [for (i = 0; i < mine.size(); ++i) body(mine[i], theirs[i])]: reading
    [theirs[i]] past its end is undefined, which is [None] here. *)
Fixpoint exchange_loop {A} (body : A → A → A * A) (mine theirs : list A)
  : option (list A * list A) :=
  match mine with
  | [] => Some ([], theirs)
  | a :: mine' =>
      match theirs with
      | [] => None
      | b :: theirs' =>
          let '(a', b') := body a b in
          '(ra, rb) ← exchange_loop body mine' theirs';
          Some (a' :: ra, b' :: rb)
      end
  end.

(** [Simulation::replexerSwap] (without [DYNAMO_DEBUG]); the result is
    the pair ([*this], [other]). *)
Definition replexerSwap (this other : Simulation)
  : option (Simulation * Simulation) :=
  let particles1 := Dynamics_updateAllParticles (dynamics this) (particles this) in
  let particles2 := Dynamics_updateAllParticles (dynamics other) (particles other) in
  '(systems1, systems2) ←
    exchange_loop System_replicaExchange (systems this) (systems other);
  let '(dynamics1, dynamics2) :=
    Dynamics_replicaExchange (dynamics this) (dynamics other) in
  let scale1 :=
    sqrt (Ensemble_val2 (ensemble other) / Ensemble_val2 (ensemble this)) in
  let particles1 := scale_velocities scale1 particles1 in
  let scheduler2 := Scheduler_rescaleTimes scale1 (ptrScheduler other) in
  let scale2 := (1 / scale1)%R in
  let particles2 := scale_velocities scale2 particles2 in
  let scheduler1 := Scheduler_rescaleTimes scale2 (ptrScheduler this) in
  let scheduler1 := Scheduler_rebuildSystemEvents systems1 scheduler1 in
  let scheduler2 := Scheduler_rebuildSystemEvents systems2 scheduler2 in
  '(plugins1, plugins2) ←
    exchange_loop
      (λ mine theirs,
         let '(mine, theirs) := OutputPlugin_replicaExchange mine theirs in
         (OutputPlugin_temperatureRescale (scale1 * scale1) mine,
          OutputPlugin_temperatureRescale (scale2 * scale2) theirs))
      (outputPlugins this) (outputPlugins other);
  let '(ensemble1, ensemble2) :=
    Ensemble_swap (ensemble this) (ensemble other) in
  Some
    (mkSimulation (systemTime other) (eventCount other) (endEventCount this)
       (eventPrintInterval this) (nextPrintEvent this) (_nextPrint this)
       (primaryCellSize this) (lastRunMFT this) (status this) (units this)
       particles1 (species this) (BCs this) dynamics1 (interactions this)
       (locals this) (globals this) systems1 ensemble1 scheduler1 plugins1,
     mkSimulation (systemTime this) (eventCount this) (endEventCount other)
       (eventPrintInterval other) (nextPrintEvent other) (_nextPrint other)
       (primaryCellSize other) (lastRunMFT other) (status other) (units other)
       particles2 (species other) (BCs other) dynamics2 (interactions other)
       (locals other) (globals other) systems2 ensemble2 scheduler2 plugins2).

(** [Simulation::simShutdown]:
    [nextPrintEvent = endEventCount = eventCount]. *)
Definition simShutdown (s : Simulation) : Simulation :=
  mkSimulation (systemTime s) (eventCount s) (eventCount s)
    (eventPrintInterval s) (eventCount s) (_nextPrint s) (primaryCellSize s)
    (lastRunMFT s) (status s) (units s) (particles s) (species s) (BCs s)
    (dynamics s) (interactions s) (locals s) (globals s) (systems s)
    (ensemble s) (ptrScheduler s) (outputPlugins s).

(** The periodic work of a step. *)
Definition periodic_work (silentMode : bool) : M unit :=
  s ← get;
  if (_nextPrint s <=? eventCount s)%N && negb silentMode
     && negb (length (outputPlugins s) =? 0)%nat
  then
    for_each OutputPlugin_periodicOutput (outputPlugins s) ;;
    modify (λ s, set__nextPrint (wrap64 (eventCount s + eventPrintInterval s)) s)
  else mret tt.

(** [Simulation::runSimulationStep]. *)
Definition runSimulationStep (silentMode : bool) : M bool :=
  s ← get;
  (if (status_rank (status s) <? status_rank INITIALISED)%N
   then throw [Str "Bad state for runSimulation()"] else mret tt) ;;
  try_catch
    (Scheduler_runNextEvent ;; periodic_work silentMode)
    (λ cep,
       s ← get;
       throw ([Str "Exception caught while executing event ";
               Cnt (eventCount s); Str endl] ++ what cep)) ;;
  s ← get;
  mret (eventCount s <? endEventCount s)%N.

End Running.

(** *** A small configuration to run the definitions on

    Components without state of their own: the scheduler is its
    list of pending event times, the ensemble its temperature. *)

Definition demo_components : Components :=
  {| Dynamics := unit; Scheduler := list R; System := unit; Local := unit;
     Global := unit; OutputPlugin := unit; Ensemble := R |}.

Section DemoConfiguration.
#[local] Existing Instance demo_components.

(** [Scheduler_runNextEvent] is left open: [demo_event] executes one
    counted event, [demo_cell_event] a virtual one, [demo_fault] throws
    out of the event. *)
Definition demo_behaviour (runNextEvent : M unit) : Behaviour :=
  {| Species_initialise := λ _, mret tt;
     Dynamics_initialise := mret tt;
     Interaction_initialise := λ _ _, mret tt;
     Local_initialise := λ _ _, mret tt;
     Global_initialise := λ _ _, mret tt;
     System_initialise := λ _ _, mret tt;
     Ensemble_initialise := mret tt;
     Scheduler_initialise := mret tt;
     OutputPlugin_initialise := λ _, mret tt;
     Scheduler_is_null := λ _, false;
     new_GPBCSentinel := tt;
     is_OPTicker := λ _, false;
     System_getName := λ _, "Halt";
     new_SysTicker := λ _, tt;
     sort_outputPlugins := λ l, l;
     Scheduler_runNextEvent := runNextEvent;
     OutputPlugin_periodicOutput := λ _, mret tt;
     Dynamics_updateAllParticles := λ _ l, l;
     Dynamics_replicaExchange := λ a b, (a, b);
     System_replicaExchange := λ a b, (a, b);
     OutputPlugin_replicaExchange := λ a b, (a, b);
     OutputPlugin_temperatureRescale := λ _ p, p;
     Scheduler_rescaleTimes := λ k times, map (λ t, (t * k)%R) times;
     Scheduler_rebuildSystemEvents := λ _ sched, sched;
     Ensemble_val2 := λ T, T;
     Ensemble_swap := λ a b, (b, a) |}.

Definition demo_event : M unit :=
  λ s,
    (Returns tt,
     mkSimulation (systemTime s) (wrap64 (eventCount s + 1)) (endEventCount s)
       (eventPrintInterval s) (nextPrintEvent s) (_nextPrint s)
       (primaryCellSize s) (lastRunMFT s) (status s) (units s) (particles s)
       (species s) (BCs s) (dynamics s) (interactions s) (locals s)
       (globals s) (systems s) (ensemble s) (ptrScheduler s)
       (outputPlugins s)).

(** A cell crossing: a virtual event, which moves the clock and leaves
    the event count alone. *)
Definition demo_cell_moved (s : Simulation) : Simulation :=
  mkSimulation (systemTime s + 1) (eventCount s) (endEventCount s)
    (eventPrintInterval s) (nextPrintEvent s) (_nextPrint s)
    (primaryCellSize s) (lastRunMFT s) (status s) (units s) (particles s)
    (species s) (BCs s) (dynamics s) (interactions s) (locals s)
    (globals s) (systems s) (ensemble s) (ptrScheduler s)
    (outputPlugins s).

Definition demo_cell_event : M unit := modify demo_cell_moved.

Definition demo_fault : M unit :=
  throw [Str "Particle 1 is not up to date"].

(** One hard-sphere-like interaction of range [1] that accepts every
    pair. *)
Definition demo_interaction : Interaction :=
  mkInteraction "Bulk" (λ _ _, true)
    (λ p1 p2, mkIntEvent (getID p1) (getID p2) HUGE_VAL NONE) 1 (λ _, 1%R).

(** A box of side [side] under [bc], with one particle of velocity [v]
    along x, at temperature [T], in the given lifecycle state. *)
Definition demo_box (st : ESimulationStatus) (bc : BoundaryCondition)
    (u : Units) (side v T : R) : Simulation :=
  mkSimulation 0 0 100000 50000 0 0 (mkVector side side side) 0 st u
    [mkParticle 0 (mkVector 0 0 0) (mkVector v 0 0)]
    [mkSpecies "Bulk" (λ _, true) 1 (λ _, 1%R)]
    bc tt [demo_interaction] [] [] [] T [] [].

Definition demo_units : Units := mkUnits 1 1 1.

End DemoConfiguration.

(** *** Interaction dispatch *)

Section DispatchFacts.
Context `{Components}.

Lemma getInteraction_loop_first before ptr after p1 p2 :
  Forall (λ q, isInteraction q p1 p2 = false) before →
  isInteraction ptr p1 p2 = true →
  getInteraction_loop (before ++ ptr :: after) p1 p2 = Returns ptr.
Proof.
  induction 1 as [|q before Hq _ IH]; intros Hptr; simpl.
  - by rewrite Hptr.
  - rewrite Hq. by apply IH.
Qed.

Lemma getEvent_loop_first before ptr after p1 p2 :
  Forall (λ q, isInteraction q p1 p2 = false) before →
  isInteraction ptr p1 p2 = true →
  getEvent_loop (before ++ ptr :: after) p1 p2
  = Returns (int_getEvent ptr p1 p2).
Proof.
  induction 1 as [|q before Hq _ IH]; intros Hptr; simpl.
  - by rewrite Hptr.
  - rewrite Hq. by apply IH.
Qed.

Lemma getInteraction_loop_none l p1 p2 :
  Forall (λ q, isInteraction q p1 p2 = false) l →
  threw (getInteraction_loop l p1 p2).
Proof.
  induction 1 as [|q l Hq _ IH]; simpl.
  - eexists; reflexivity.
  - by rewrite Hq.
Qed.

Lemma getEvent_loop_none l p1 p2 :
  Forall (λ q, isInteraction q p1 p2 = false) l →
  threw (getEvent_loop l p1 p2).
Proof.
  induction 1 as [|q l Hq _ IH]; simpl.
  - eexists; reflexivity.
  - by rewrite Hq.
Qed.

(** Every list has a first accepting interaction or none at all. *)
Lemma first_match_or_none l p1 p2 :
  (∃ ptr, first_match l p1 p2 ptr)
  ∨ Forall (λ q, isInteraction q p1 p2 = false) l.
Proof.
  induction l as [|q l IH].
  - right. constructor.
  - destruct (isInteraction q p1 p2) eqn:Hq.
    + left. exists q, [], l. by repeat split.
    + destruct IH as [(ptr & before & after & -> & Hb & Hp)|Hnone].
      * left. exists ptr, (q :: before), after. repeat split; [|done].
        by constructor.
      * right. by constructor.
Qed.

(** C1. For every pair of particles, [getInteraction] returns the first
    interaction of the list, in list order, whose selector accepts the
    pair, and [getEvent] returns the event that interaction computes;
    the interactions after it play no part (the result is the same for
    every [after]). When no interaction accepts the pair, both throw.
    One of the two cases always applies. *)
Theorem getInteraction_getEvent_first_match (s : Simulation) (p1 p2 : Particle) :
  (∀ before ptr after,
     interactions s = before ++ ptr :: after →
     Forall (λ q, isInteraction q p1 p2 = false) before →
     isInteraction ptr p1 p2 = true →
     getInteraction s p1 p2 = Returns ptr
     ∧ getEvent s p1 p2 = Returns (int_getEvent ptr p1 p2)
     ∧ ∀ after',
         getInteraction_loop (before ++ ptr :: after') p1 p2 = Returns ptr
         ∧ getEvent_loop (before ++ ptr :: after') p1 p2
           = Returns (int_getEvent ptr p1 p2))
  ∧ (Forall (λ q, isInteraction q p1 p2 = false) (interactions s) →
     threw (getInteraction s p1 p2) ∧ threw (getEvent s p1 p2))
  ∧ ((∃ ptr, first_match (interactions s) p1 p2 ptr)
     ∨ Forall (λ q, isInteraction q p1 p2 = false) (interactions s)).
Proof.
  unfold getInteraction, getEvent. split; [|split].
  - intros before ptr after -> Hbefore Hptr. repeat split.
    + by apply getInteraction_loop_first.
    + by apply getEvent_loop_first.
    + by apply getInteraction_loop_first.
    + by apply getEvent_loop_first.
  - intros Hnone. split.
    + by apply getInteraction_loop_none.
    + by apply getEvent_loop_none.
  - apply first_match_or_none.
Qed.

End DispatchFacts.

(** Of two interactions that both accept a pair, the first in the list
    answers. *)
Example getInteraction_takes_first :
  let bonds := mkInteraction "Bonds" (λ _ _, true)
                 (λ p1 p2, mkIntEvent (getID p1) (getID p2) (Finite 1) CORE)
                 2 (λ _, 1%R) in
  let s := @mkSimulation demo_components 0 0 100000 50000 0 0
             (mkVector 10 10 10) 0 INITIALISED demo_units [] [] BCNone tt
             [bonds; demo_interaction] [] [] [] 1%R [] [] in
  let p := mkParticle 0 (mkVector 0 0 0) (mkVector 1 0 0) in
  intName <$> (match getInteraction s p p with
               | Returns ptr => Some ptr
               | Throws _ => None
               end) = Some "Bonds"
  ∧ ev_type <$> (match getEvent s p p with
                 | Returns ev => Some ev
                 | Throws _ => None
                 end) = Some CORE.
Proof. split; reflexivity. Qed.

(** *** The periodic-image check of [initialise] *)

Section InitialiseFacts.
Context `{Components} `{!Behaviour}.

Lemma bind_Returns {A B} (m : M A) (f : A → M B) s a s' :
  m s = (Returns a, s') → (m ≫= f) s = f a s'.
Proof. intros Hm. unfold mbind, M_bind. by rewrite Hm. Qed.

Lemma bind_Throws {A B} (m : M A) (f : A → M B) s e s' :
  m s = (Throws e, s') → (m ≫= f) s = (Throws e, s').
Proof. intros Hm. unfold mbind, M_bind. by rewrite Hm. Qed.

(** The running maximum of [getLongestInteraction] never decreases and
    is its start value or one of the distances seen. *)
Lemma longest_fold_spec (l : list Interaction) (start : R) :
  let r := fold_left
    (λ maxval ptr,
       if Rgt_dec (maxIntDist ptr) maxval then maxIntDist ptr else maxval)
    l start in
  (start <= r)%R
  ∧ Forall (λ ptr, (maxIntDist ptr <= r)%R) l
  ∧ (r = start ∨ ∃ ptr, ptr ∈ l ∧ maxIntDist ptr = r).
Proof.
  revert start. induction l as [|q l IH]; intros start; simpl.
  - repeat split; [lra | constructor | by left].
  - destruct (Rgt_dec (maxIntDist q) start) as [Hgt|Hle].
    + destruct (IH (maxIntDist q)) as (Hge & Hall & Hsrc).
      repeat split; [lra | by constructor |].
      right. destruct Hsrc as [->|(ptr & Hin & Hr)].
      * exists q. split; [left | done].
      * exists ptr. split; [by right | done].
    + destruct (IH start) as (Hge & Hall & Hsrc).
      repeat split; [done | constructor; [lra | done] |].
      destruct Hsrc as [Hs|(ptr & Hin & Hr)]; [by left |].
      right. exists ptr. split; [by right | done].
Qed.

(** [getLongestInteraction] is the longest interaction distance, or zero
    when no interaction reaches further than that. *)
Lemma getLongestInteraction_spec (s : Simulation) :
  Forall (λ ptr, (maxIntDist ptr <= getLongestInteraction s)%R) (interactions s)
  ∧ (getLongestInteraction s = 0%R
     ∨ ∃ ptr, ptr ∈ interactions s ∧ maxIntDist ptr = getLongestInteraction s).
Proof.
  destruct (longest_fold_spec (interactions s) 0%R) as (_ & Hall & Hsrc).
  by split.
Qed.

(** Under a periodic boundary, a side below twice the longest
    interaction makes the check throw, leaving the state as it was. *)
Lemma check_primary_image_small (s : Simulation) (i : nat) :
  is_BCPeriodic (BCs s) = true →
  (i < NDIM)%nat →
  (coord (primaryCellSize s) i < 2 * getLongestInteraction s)%R →
  ∃ e, check_primary_image s = (Throws e, s).
Proof.
  intros Hbc Hi Hsmall.
  unfold check_primary_image, mbind, M_bind, get. rewrite Hbc. simpl.
  unfold check_primary_image_dim, mbind, M_bind, get, throw, mret, M_ret.
  repeat
    match goal with
    | |- context [Rle_dec ?a ?b] => destruct (Rle_dec a b); simpl
    end;
    try (eexists; reflexivity).
  exfalso. unfold NDIM in Hi.
  destruct i as [|[|[|i]]]; simpl in *; try lra; lia.
Qed.

(** With every side above twice the longest interaction the check
    returns, leaving the state as it was. *)
Lemma check_primary_image_large (s : Simulation) :
  (∀ i, (i < NDIM)%nat →
        (coord (primaryCellSize s) i > 2 * getLongestInteraction s)%R) →
  check_primary_image s = (Returns tt, s).
Proof.
  intros Hlarge.
  pose proof (Hlarge 0%nat) as Hx. pose proof (Hlarge 1%nat) as Hy.
  pose proof (Hlarge 2%nat) as Hz. clear Hlarge. unfold NDIM in *. simpl in *.
  unfold check_primary_image, mbind, M_bind, get.
  destruct (is_BCPeriodic (BCs s)); [|done]. simpl.
  unfold check_primary_image_dim, mbind, M_bind, get, throw, mret, M_ret.
  simpl.
  repeat
    match goal with
    | |- context [Rle_dec ?a ?b] => destruct (Rle_dec a b); simpl
    end;
    try reflexivity; exfalso;
    repeat match goal with
           | Hx : (?n < 3)%nat → _ |- _ => specialize (Hx ltac:(lia))
           end; lra.
Qed.

(** C5. Let [s] be the state in which [initialise] reaches the
    periodic-image check, with a periodic boundary, and let [rmax] be
    [getLongestInteraction s], the longest interaction distance of the
    interactions. If some side of the primary image is below [2 * rmax],
    [initialise] throws (at the check, with the state as it was there);
    if every side exceeds [2 * rmax], the check passes and [initialise]
    goes on with the phases after it. *)
Theorem initialise_periodic_image_check (s0 s : Simulation) :
  initialise_to_interactions s0 = (Returns tt, s) →
  is_BCPeriodic (BCs s) = true →
  let rmax := getLongestInteraction s in
  (Forall (λ ptr, (maxIntDist ptr <= rmax)%R) (interactions s)
   ∧ (rmax = 0%R ∨ ∃ ptr, ptr ∈ interactions s ∧ maxIntDist ptr = rmax))
  ∧ ((∃ i, (i < NDIM)%nat ∧ (coord (primaryCellSize s) i < 2 * rmax)%R) →
     ∃ e, initialise s0 = (Throws e, s))
  ∧ ((∀ i, (i < NDIM)%nat → (coord (primaryCellSize s) i > 2 * rmax)%R) →
     check_primary_image s = (Returns tt, s)
     ∧ initialise s0 = initialise_from_interactions s).
Proof.
  intros Hpre Hbc rmax. split; [apply getLongestInteraction_spec|]. split.
  - intros (i & Hi & Hsmall).
    destruct (check_primary_image_small s i Hbc Hi Hsmall) as [e He].
    exists e. unfold initialise.
    rewrite (bind_Returns _ _ _ _ _ Hpre).
    by rewrite (bind_Throws _ _ _ _ _ He).
  - intros Hlarge.
    pose proof (check_primary_image_large s Hlarge) as Hcheck.
    split; [done|]. unfold initialise.
    rewrite (bind_Returns _ _ _ _ _ Hpre).
    by rewrite (bind_Returns _ _ _ _ _ Hcheck).
Qed.

(** A failure before the check is a failure of [initialise] as well. *)
Lemma initialise_early_throw (s0 s : Simulation) e :
  initialise_to_interactions s0 = (Throws e, s) →
  initialise s0 = (Throws e, s).
Proof. intros Hpre. unfold initialise. by rewrite (bind_Throws _ _ _ _ _ Hpre). Qed.

End InitialiseFacts.

(** The check at work: a periodic box of side 1 with an interaction of
    range 1 is refused. *)
Lemma initialise_periodic_image_check_witness :
  ∃ e,
    @initialise demo_components (demo_behaviour demo_event)
      (demo_box START BCPeriodic demo_units 1 0 1)
    = (Throws e, demo_box DYNAMICS_INIT BCPeriodic demo_units 1 0 1).
Proof.
  refine (proj1 (proj2
    (@initialise_periodic_image_check demo_components
       (demo_behaviour demo_event)
       (demo_box START BCPeriodic demo_units 1 0 1)
       (demo_box DYNAMICS_INIT BCPeriodic demo_units 1 0 1) _ _)) _).
  - reflexivity.
  - reflexivity.
  - exists 0%nat. split; [unfold NDIM; lia|].
    unfold getLongestInteraction. simpl.
    destruct (Rgt_dec 1 0); lra.
Defined.

(** A periodic box of side 10 passes the check and is initialised, with
    the sentinel of the periodic boundary among its globals. *)
Example initialise_large_periodic_box :
  let run :=
    @initialise demo_components (demo_behaviour demo_event)
      (demo_box START BCPeriodic demo_units 10 0 1) in
  run.1 = Returns tt
  ∧ status run.2 = INITIALISED
  ∧ globals run.2 = [tt]
  ∧ _nextPrint run.2 = 50000%N.
Proof.
  assert (@check_primary_image demo_components
            (demo_box DYNAMICS_INIT BCPeriodic demo_units 10 0 1)
          = (Returns tt, demo_box DYNAMICS_INIT BCPeriodic demo_units 10 0 1))
    as Hcheck.
  { apply check_primary_image_large. intros i Hi.
    unfold getLongestInteraction. simpl.
    destruct (Rgt_dec 1 0); [|lra].
    destruct i as [|[|[|i]]]; simpl; lra. }
  intros run.
  assert (run = @initialise_from_interactions demo_components
                  (demo_behaviour demo_event)
                  (demo_box DYNAMICS_INIT BCPeriodic demo_units 10 0 1))
    as ->.
  { unfold run, initialise.
    rewrite (bind_Returns _ _ _ tt
               (demo_box DYNAMICS_INIT BCPeriodic demo_units 10 0 1))
      by reflexivity.
    by rewrite (bind_Returns _ _ _ _ _ Hcheck). }
  vm_compute. by repeat split.
Qed.

(** *** The step loop *)

Section StepFacts.
Context `{Components} `{!Behaviour}.

(** C7. In an initialised simulation, an exception thrown by the
    scheduler's [runNextEvent] is caught by [runSimulationStep] and a new
    exception is thrown in its place, whose message is the event count
    at that moment followed by the message of the one caught; the step
    does not return. *)
Theorem runSimulationStep_wraps_exception
    (silentMode : bool) (s s' : Simulation) (cep : exception) :
  status s = INITIALISED →
  Scheduler_runNextEvent s = (Throws cep, s') →
  runSimulationStep silentMode s
  = (Throws (M_throw ([Str "Exception caught while executing event ";
                       Cnt (eventCount s'); Str endl] ++ what cep)), s').
Proof.
  intros Hst Hrun.
  unfold runSimulationStep, try_catch, mbind, M_bind, get, throw, mret, M_ret.
  rewrite Hst. simpl. by rewrite Hrun.
Qed.

(** The state of a simulation that has been told to stop: the event
    count has reached the end count. *)
Definition shut_down (s : Simulation) : Prop :=
  (endEventCount s <= eventCount s)%N.

(** A member function keeps a shut-down simulation shut down, whether
    it returns or throws. *)
Definition keeps_shut_down {A} (m : M A) : Prop :=
  ∀ s r s', shut_down s → m s = (r, s') → shut_down s'.

(** Leaving [endEventCount] alone and never lowering [eventCount] is
    enough for that. *)
Lemma counting_keeps_shut_down {A} (m : M A) :
  (∀ s r s', m s = (r, s') →
     endEventCount s' = endEventCount s ∧ (eventCount s <= eventCount s')%N) →
  keeps_shut_down m.
Proof.
  intros Hm s r s' Hs Hrun. destruct (Hm s r s' Hrun) as [Hend Hcount].
  unfold shut_down in *. lia.
Qed.

Lemma for_each_keeps_shut_down {A} (body : A → M unit) (l : list A) :
  (∀ a, keeps_shut_down (body a)) → keeps_shut_down (for_each body l).
Proof.
  intros Hbody. induction l as [|a l IH]; intros s r s' Hs; simpl.
  - unfold mret, M_ret. by intros [= <- <-].
  - unfold mbind, M_bind.
    destruct (body a s) as [[[]|e] s1] eqn:Ha.
    + intros Hrest. eapply IH; [|exact Hrest]. by eapply Hbody.
    + intros [= <- <-]. by eapply Hbody.
Qed.

(** The states a simulation passes through in a run of calls of
    [runSimulationStep], each of which returns or throws. *)
Inductive after_steps (s : Simulation) : Simulation → Prop :=
| after_no_step : after_steps s s
| after_one_more silentMode s1 r s2 :
    after_steps s s1 →
    runSimulationStep silentMode s1 = (r, s2) →
    after_steps s s2.

Hypothesis scheduler_keeps_shut_down : keeps_shut_down Scheduler_runNextEvent.
Hypothesis plugins_keep_shut_down :
  ∀ Ptr, keeps_shut_down (OutputPlugin_periodicOutput Ptr).

Lemma simShutdown_shut_down (s : Simulation) : shut_down (simShutdown s).
Proof. unfold shut_down, simShutdown. simpl. lia. Qed.

Lemma periodic_work_keeps_shut_down silentMode :
  keeps_shut_down (periodic_work silentMode).
Proof.
  intros s r s' Hs. unfold periodic_work, mbind, M_bind, get.
  destruct (_ && _ && _).
  - destruct (for_each OutputPlugin_periodicOutput (outputPlugins s) s)
      as [[[]|e] s1] eqn:Hloop.
    + unfold modify. intros [= <- <-].
      by apply (for_each_keeps_shut_down _ _ plugins_keep_shut_down _ _ _ Hs Hloop).
    + intros [= <- <-].
      by apply (for_each_keeps_shut_down _ _ plugins_keep_shut_down _ _ _ Hs Hloop).
  - unfold mret, M_ret. by intros [= <- <-].
Qed.

(** One call in a shut-down simulation: it stays shut down, and if the
    call returns, it returns [false]. *)
Lemma runSimulationStep_shut_down silentMode (s : Simulation) r s' :
  shut_down s →
  runSimulationStep silentMode s = (r, s') →
  shut_down s' ∧ ∀ b, r = Returns b → b = false.
Proof.
  intros Hs.
  unfold runSimulationStep, try_catch, mbind, M_bind, get, throw, mret, M_ret.
  destruct (status_rank (status s) <? status_rank INITIALISED)%N.
  { intros [= <- <-]. split; [done|]. intros b [=]. }
  destruct (Scheduler_runNextEvent s) as [[[]|e] s1] eqn:Hrun.
  - pose proof (scheduler_keeps_shut_down _ _ _ Hs Hrun) as Hs1.
    destruct (periodic_work silentMode s1) as [[[]|e] s2] eqn:Hwork.
    + pose proof (periodic_work_keeps_shut_down _ _ _ _ Hs1 Hwork) as Hs2.
      intros [= <- <-]. split; [done|]. intros b [= <-].
      apply N.ltb_ge. exact Hs2.
    + pose proof (periodic_work_keeps_shut_down _ _ _ _ Hs1 Hwork) as Hs2.
      intros [= <- <-]. split; [done|]. intros b [=].
  - pose proof (scheduler_keeps_shut_down _ _ _ Hs Hrun) as Hs1.
    intros [= <- <-]. split; [done|]. intros b [=].
Qed.

(** When the event and the periodic work return, so does the step. *)
Lemma runSimulationStep_returns silentMode (s s1 s2 : Simulation) :
  status s = INITIALISED →
  Scheduler_runNextEvent s = (Returns tt, s1) →
  periodic_work silentMode s1 = (Returns tt, s2) →
  runSimulationStep silentMode s
  = (Returns (eventCount s2 <? endEventCount s2)%N, s2).
Proof.
  intros Hst Hrun Hwork.
  unfold runSimulationStep, try_catch, mbind, M_bind, get, throw, mret, M_ret.
  rewrite Hst. simpl. by rewrite Hrun, Hwork.
Qed.

(** C8. After [simShutdown] has set [endEventCount = eventCount], the
    next call of [runSimulationStep] that returns, returns [false], and
    so does every later call that returns, given that neither the
    scheduler nor the output plugins take the event count back below the
    end count (the event count only grows). *)
Theorem runSimulationStep_false_after_simShutdown
    (s s1 s2 : Simulation) (silentMode b : bool) :
  after_steps (simShutdown s) s1 →
  runSimulationStep silentMode s1 = (Returns b, s2) →
  endEventCount (simShutdown s) = eventCount s
  ∧ eventCount (simShutdown s) = eventCount s
  ∧ b = false.
Proof.
  intros Hsteps Hcall. split; [done|]. split; [done|].
  assert (shut_down s1) as Hs1.
  { clear Hcall. induction Hsteps as [|sm t1 r t2 _ IH Hstep].
    - apply simShutdown_shut_down.
    - by destruct (runSimulationStep_shut_down _ _ _ _ IH Hstep). }
  destruct (runSimulationStep_shut_down _ _ _ _ Hs1 Hcall) as [_ Hb].
  by apply Hb.
Qed.

End StepFacts.

(** A fault in the first event of an initialised box is reported as a
    fault of event 0. *)
Lemma runSimulationStep_wraps_exception_witness :
  @runSimulationStep demo_components (demo_behaviour demo_fault) false
    (demo_box INITIALISED BCNone demo_units 10 1 1)
  = (Throws (M_throw [Str "Exception caught while executing event ";
                      Cnt 0; Str endl; Str "Particle 1 is not up to date"]),
     demo_box INITIALISED BCNone demo_units 10 1 1).
Proof.
  apply (@runSimulationStep_wraps_exception demo_components
           (demo_behaviour demo_fault) false
           (demo_box INITIALISED BCNone demo_units 10 1 1)
           (demo_box INITIALISED BCNone demo_units 10 1 1)
           (M_throw [Str "Particle 1 is not up to date"])).
  - reflexivity.
  - reflexivity.
Defined.

(** A box that is shut down before its first event, stepped twice: the
    second step returns [false] as well. *)
Lemma runSimulationStep_false_after_simShutdown_witness :
  let s := demo_box INITIALISED BCNone demo_units 10 1 1 in
  endEventCount (simShutdown s) = 0%N
  ∧ eventCount (simShutdown s) = 0%N
  ∧ false = false.
Proof.
  refine (@runSimulationStep_false_after_simShutdown demo_components
            (demo_behaviour demo_cell_event) _ _
            (demo_box INITIALISED BCNone demo_units 10 1 1)
            (demo_cell_moved (simShutdown (demo_box INITIALISED BCNone demo_units 10 1 1)))
            (demo_cell_moved (demo_cell_moved
               (simShutdown (demo_box INITIALISED BCNone demo_units 10 1 1))))
            false false _ _).
  - intros s r s' Hs [= <- <-]. exact Hs.
  - intros Ptr s r s' Hs [= <- <-]. exact Hs.
  - eapply (after_one_more _ true).
    + apply after_no_step.
    + reflexivity.
  - reflexivity.
Defined.

(** *** Replica exchange *)

Section ReplexFacts.
Context `{Components} `{!Behaviour}.

Lemma exchange_loop_Some {A} (body : A → A → A * A) (mine theirs : list A) :
  (length mine ≤ length theirs)%nat →
  ∃ mine' theirs', exchange_loop body mine theirs = Some (mine', theirs').
Proof.
  revert theirs. induction mine as [|a mine IH]; intros theirs Hlen; simpl.
  - by eexists _, _.
  - destruct theirs as [|b theirs]; simpl in Hlen; [lia|].
    destruct (body a b) as [a' b'].
    destruct (IH theirs ltac:(lia)) as (ra & rb & ->). simpl.
    by eexists _, _.
Qed.

Lemma kineticEnergy_scale_velocities (mass : N → R) (scale : R) l :
  kineticEnergy mass (scale_velocities scale l)
  = (scale * scale * kineticEnergy mass l)%R.
Proof.
  induction l as [|part l IH]; simpl.
  - lra.
  - rewrite IH. unfold vdot, vscale. simpl. lra.
Qed.

(** C4, as the code has it. [replexerSwap] swaps the system clocks and
    the event counts, multiplies every (streamed) velocity of [this] by
    [scale1 = sqrt (T_other / T_this)] and every velocity of [other] by
    [1 / scale1], rescales the scheduler times of [this] by [1 / scale1]
    and those of [other] by [scale1], and rebuilds the system events of
    both. The kinetic energy of [this] is thereby multiplied by
    [T_other / T_this] and that of [other] by [T_this / T_other]. *)
Theorem replexerSwap_exchange (this other : Simulation) (mass : N → R) :
  (length (systems this) ≤ length (systems other))%nat →
  (length (outputPlugins this) ≤ length (outputPlugins other))%nat →
  (0 < Ensemble_val2 (ensemble this))%R →
  (0 < Ensemble_val2 (ensemble other))%R →
  let T_this := Ensemble_val2 (ensemble this) in
  let T_other := Ensemble_val2 (ensemble other) in
  let scale1 := sqrt (T_other / T_this) in
  let streamed1 := Dynamics_updateAllParticles (dynamics this) (particles this) in
  let streamed2 := Dynamics_updateAllParticles (dynamics other) (particles other) in
  ∃ this' other',
    replexerSwap this other = Some (this', other')
    ∧ systemTime this' = systemTime other
    ∧ systemTime other' = systemTime this
    ∧ eventCount this' = eventCount other
    ∧ eventCount other' = eventCount this
    ∧ particles this' = scale_velocities scale1 streamed1
    ∧ particles other' = scale_velocities (1 / scale1) streamed2
    ∧ ptrScheduler this'
      = Scheduler_rebuildSystemEvents (systems this')
          (Scheduler_rescaleTimes (1 / scale1) (ptrScheduler this))
    ∧ ptrScheduler other'
      = Scheduler_rebuildSystemEvents (systems other')
          (Scheduler_rescaleTimes scale1 (ptrScheduler other))
    ∧ kineticEnergy mass (particles this')
      = (T_other / T_this * kineticEnergy mass streamed1)%R
    ∧ kineticEnergy mass (particles other')
      = (T_this / T_other * kineticEnergy mass streamed2)%R.
Proof.
  intros Hsys Hplug HT1 HT2 T_this T_other scale1 streamed1 streamed2.
  unfold replexerSwap.
  destruct (exchange_loop_Some System_replicaExchange _ _ Hsys)
    as (systems1 & systems2 & ->). simpl.
  destruct (Dynamics_replicaExchange (dynamics this) (dynamics other))
    as [dynamics1 dynamics2].
  match goal with
  | |- context [exchange_loop ?body (outputPlugins this) (outputPlugins other)] =>
      destruct (exchange_loop_Some body _ _ Hplug) as (plugins1 & plugins2 & ->)
  end. simpl.
  destruct (Ensemble_swap (ensemble this) (ensemble other))
    as [ensemble1 ensemble2].
  eexists _, _. split; [reflexivity|]. simpl.
  assert (0 < T_other / T_this)%R as Hratio
    by (apply Rdiv_lt_0_compat; assumption).
  assert (scale1 * scale1 = T_other / T_this)%R as Hsq
    by (apply sqrt_sqrt; lra).
  assert (0 < scale1)%R as Hpos by (apply sqrt_lt_R0; exact Hratio).
  repeat split; try reflexivity.
  - rewrite kineticEnergy_scale_velocities. fold T_this T_other scale1.
    by rewrite Hsq.
  - rewrite kineticEnergy_scale_velocities. fold T_this T_other scale1.
    replace (1 / scale1 * (1 / scale1))%R with (1 / (scale1 * scale1))%R
      by (field; lra).
    rewrite Hsq. f_equal. field. split; unfold T_this, T_other; lra.
Qed.

End ReplexFacts.

(** Two boxes at temperatures 1 and 4 are exchanged: the box that was at
    temperature 1 ends with kinetic energy 2, which is four times what it
    had and not the 9/2 its partner had. *)
Lemma replexerSwap_energy_counterexample :
  let this := demo_box INITIALISED BCNone demo_units 10 1 1 in
  let other := demo_box INITIALISED BCNone demo_units 10 3 4 in
  ∃ this' other',
    @replexerSwap demo_components (demo_behaviour demo_event) this other
    = Some (this', other')
    ∧ kineticEnergy (λ _, 1%R) (particles other) = (9 / 2)%R
    ∧ kineticEnergy (λ _, 1%R) (particles this') = 2%R
    ∧ kineticEnergy (λ _, 1%R) (particles this')
      ≠ kineticEnergy (λ _, 1%R) (particles other).
Proof.
  eexists _, _. split; [reflexivity|]. simpl. unfold vdot. simpl.
  replace (4 / 1)%R with (2 * 2)%R by lra.
  rewrite sqrt_square by lra.
  repeat split; lra.
Qed.

Lemma replexerSwap_exchange_witness :
  let this := demo_box INITIALISED BCNone demo_units 10 1 1 in
  let other := demo_box INITIALISED BCNone demo_units 10 3 4 in
  ∃ this' other',
    @replexerSwap demo_components (demo_behaviour demo_event) this other
    = Some (this', other')
    ∧ kineticEnergy (λ _, 1%R) (particles this')
      = (4 / 1 * kineticEnergy (λ _, 1%R) (particles this))%R.
Proof.
  destruct (@replexerSwap_exchange demo_components (demo_behaviour demo_event)
              (demo_box INITIALISED BCNone demo_units 10 1 1)
              (demo_box INITIALISED BCNone demo_units 10 3 4) (λ _, 1%R))
    as (this' & other' & Hswap & _ & _ & _ & _ & _ & _ & _ & _ & Hke & _).
  - simpl. lia.
  - simpl. lia.
  - simpl. lra.
  - simpl. lra.
  - exists this', other'. split; [exact Hswap | exact Hke].
Defined.

(** *** Units of the container's own quantities *)

(** C6 at work on [SimulationSize]. With a length unit of 2, loading a
    [SimulationSize] of 4 gives an internal side of 2 (the value divided
    by the unit, where multiplying gives 8), and writing that state gives
    a [SimulationSize] of 1: load followed by save does not give back
    the 4 of the document. *)
Lemma loadXMLfile_SimulationSize_unitLength_2 :
  let units2 := mkUnits 2 1 1 in
  let doc := mkDocument "1.5.0" None (mkVector 4 4 4) in
  let s0 := demo_box START BCNone units2 1 0 1 in
  ∃ s,
    @loadXMLfile demo_components (λ _, mret tt) (mret tt) doc s0 = (Returns tt, s)
    ∧ primaryCellSize s = mkVector (4 / 2) (4 / 2) (4 / 2)
    ∧ coord (primaryCellSize s) 0 ≠ (4 * unitLength units2)%R
    ∧ doc_SimulationSize (writeXMLfile None s)
      = mkVector (4 / 2 / 2) (4 / 2 / 2) (4 / 2 / 2)
    ∧ doc_SimulationSize (writeXMLfile None s) ≠ doc_SimulationSize doc.
Proof.
  eexists. split; [reflexivity|]. simpl. unfold vdiv. simpl.
  repeat split; try reflexivity.
  - lra.
  - intros [= Hx _ _]. lra.
Qed.

(** The same for [lastMFT] when no mean free time can be computed at
    save time: it is multiplied by the time unit on load and written
    back as it is. *)
Lemma loadXMLfile_lastMFT_unitTime_2 :
  let units2 := mkUnits 1 2 1 in
  let doc := mkDocument "1.5.0" (Some 3%R) (mkVector 4 4 4) in
  let s0 := demo_box START BCNone units2 1 0 1 in
  ∃ s,
    @loadXMLfile demo_components (λ _, mret tt) (mret tt) doc s0 = (Returns tt, s)
    ∧ lastRunMFT s = (3 * 2)%R
    ∧ doc_lastMFT (writeXMLfile (Some HUGE_VAL) s) = Some (3 * 2)%R
    ∧ doc_lastMFT (writeXMLfile (Some HUGE_VAL) s) ≠ doc_lastMFT doc.
Proof.
  eexists. split; [reflexivity|]. simpl.
  repeat split; try reflexivity.
  intros [= Hx]. lra.
Qed.

(** *** More of the container: species, lifecycle, names *)

Section Lifecycle.
Context `{Components} `{!Behaviour}.

Definition set_particles x (s : Simulation) : Simulation :=
  mkSimulation (systemTime s) (eventCount s) (endEventCount s)
    (eventPrintInterval s) (nextPrintEvent s) (_nextPrint s)
    (primaryCellSize s) (lastRunMFT s) (status s) (units s) x (species s)
    (BCs s) (dynamics s) (interactions s) (locals s) (globals s) (systems s)
    (ensemble s) (ptrScheduler s) (outputPlugins s).

Definition set_species x (s : Simulation) : Simulation :=
  mkSimulation (systemTime s) (eventCount s) (endEventCount s)
    (eventPrintInterval s) (nextPrintEvent s) (_nextPrint s)
    (primaryCellSize s) (lastRunMFT s) (status s) (units s) (particles s) x
    (BCs s) (dynamics s) (interactions s) (locals s) (globals s) (systems s)
    (ensemble s) (ptrScheduler s) (outputPlugins s).

(** [Simulation::SpeciesContainer::operator()]: the first species that
    owns the particle. *)
Fixpoint species_of_loop (l : list Species) (p1 : Particle) : outcome Species :=
  match l with
  | [] =>
      Throws (M_throw
        [Str "Could not find the species corresponding to particle ID=";
         Cnt (getID p1)])
  | ptr :: rest =>
      if isSpecies ptr p1 then Returns ptr else species_of_loop rest p1
  end.

Definition species_of (s : Simulation) (p1 : Particle) : outcome Species :=
  species_of_loop (species s) p1.

(** [Simulation::addSpecies]. *)
Definition addSpecies (sp : Species) : M unit :=
  s ← get;
  if (status_rank INITIALISED <=? status_rank (status s))%N
  then throw [Str "Cannot add species after simulation initialisation"]
  else modify (λ s, set_species (species s ++ [sp]) s).

(** [Simulation::addOutputPlugin]; [getPlugin] is
    [OutputPlugin::getPlugin(Name, this)], which may throw. *)
Definition addOutputPlugin
    (getPlugin : string → Simulation → outcome OutputPlugin) (Name : string)
  : M unit :=
  s ← get;
  if (status_rank INITIALISED <=? status_rank (status s))%N
  then throw [Str "Cannot add plugins now"]
  else
    match getPlugin Name s with
    | Returns tempPlug =>
        modify (λ s, set_outputPlugins (outputPlugins s ++ [tempPlug]) s)
    | Throws e => λ s, (Throws e, s)
    end.

(** [Simulation::reset]. *)
Definition reset : M unit :=
  s ← get;
  (if match status s with INITIALISED => false | _ => true end
   then throw [Str "Cannot reinitialise an un-initialised simulation"]
   else mret tt) ;;
  modify (λ s,
    mkSimulation 0 0 (endEventCount s) (eventPrintInterval s) 0 (_nextPrint s)
      (primaryCellSize s) 0 START (units s)
      (Dynamics_updateAllParticles (dynamics s) (particles s)) (species s)
      (BCs s) (dynamics s) (interactions s) (locals s) (globals s) (systems s)
      (ensemble s) (ptrScheduler s) []).

(** [Simulation::getNumberDensity]. *)
Definition getNumberDensity (s : Simulation) : R :=
  (IZR (Z.of_N (N_particles s)) / getSimVolume s)%R.

End Lifecycle.

(** The double quote of the messages. *)
Definition dquote : string := String (Ascii.ascii_of_nat 34) EmptyString.

Section NodeNames.
(** The nodes of the XML reader, with [getName], [getPath] and
    [getAttribute("Name").as<std::string>()], which throws where the
    attribute is missing. *)
Variable Node : Type.
Variable Node_getName : Node → string.
Variable Node_getPath : Node → string.
Variable Node_getAttribute_Name : Node → outcome string.

(** The loop of [checkNodeNameAttribute] over the sibling nodes from
    [node] on, with the names seen so far. *)
Fixpoint checkNodeNameAttribute_loop (nodes : list Node) (names : gset string)
  : outcome unit :=
  match nodes with
  | [] => Returns tt
  | node :: rest =>
      match Node_getAttribute_Name node with
      | Throws e => Throws e
      | Returns currentname =>
          if decide (currentname ∈ names) then
            Throws (M_throw
              [Str (Node_getName node); Str " at path :";
               Str (Node_getPath node); Str endl;
               Str " Does not have a unique name (Name="; Str dquote;
               Str currentname; Str dquote; Str ")"])
          else checkNodeNameAttribute_loop rest (names ∪ {[currentname]})
      end
  end.

(** [checkNodeNameAttribute]. *)
Definition checkNodeNameAttribute (nodes : list Node) : outcome unit :=
  checkNodeNameAttribute_loop nodes ∅.

End NodeNames.

Section SpeciesFacts.
Context `{Components} `{!Behaviour}.

Lemma species_count_owned l part :
  species_count l part 0 =
    if existsb (λ ptr, isSpecies ptr part) l then 1%N else 0%N.
Proof.
  induction l as [|ptr l IH]; simpl; [done|].
  destruct (isSpecies ptr part); simpl; [done | exact IH].
Qed.

Lemma check_species_of_owned (s : Simulation) (part : Particle) :
  (existsb (λ ptr, isSpecies ptr part) (species s) = true →
     check_species_of part s = (Returns tt, s))
  ∧ (existsb (λ ptr, isSpecies ptr part) (species s) = false →
     check_species_of part s
     = (Throws (M_throw [Str "Particle ID="; Cnt (getID part);
                         Str " has no species"]), s)).
Proof.
  unfold check_species_of, mbind, M_bind, get, throw, mret, M_ret.
  rewrite species_count_owned.
  destruct (existsb _ (species s)); simpl; split; done.
Qed.

(** X1. The species check of [initialise] passes a particle exactly when
    some species owns it, and otherwise throws "has no species"; because
    the count stops at the first owner, a particle owned by several
    species passes too, and "has more than one species" is never
    thrown. The simulation is left as it was either way. *)
Theorem check_species_of_first_owner_only (s : Simulation) (part : Particle) :
  (existsb (λ ptr, isSpecies ptr part) (species s) = true →
     check_species_of part s = (Returns tt, s))
  ∧ (existsb (λ ptr, isSpecies ptr part) (species s) = false →
     check_species_of part s
     = (Throws (M_throw [Str "Particle ID="; Cnt (getID part);
                         Str " has no species"]), s))
  ∧ check_species_of part s
    ≠ (Throws (M_throw [Str "Particle ID="; Cnt (getID part);
                        Str " has more than one species"]), s).
Proof.
  unfold check_species_of, mbind, M_bind, get, throw, mret, M_ret.
  rewrite species_count_owned.
  destruct (existsb _ (species s)); simpl; repeat split; done.
Qed.

Lemma species_of_loop_spec l part :
  match species_of_loop l part with
  | Returns sp =>
      ∃ before after,
        l = before ++ sp :: after
        ∧ Forall (λ q, isSpecies q part = false) before
        ∧ isSpecies sp part = true
  | Throws _ => Forall (λ q, isSpecies q part = false) l
  end.
Proof.
  induction l as [|ptr l IH]; simpl; [constructor|].
  destruct (isSpecies ptr part) eqn:Hptr.
  - by exists [], l.
  - destruct (species_of_loop l part) as [sp|e].
    + destruct IH as (before & after & -> & Hbefore & Hsp).
      exists (ptr :: before), after. repeat split; [|done].
      by constructor.
    + by constructor.
Qed.

(** X2. The species lookup returns the first species of the list that
    owns the particle and throws when none does; it returns exactly for
    the particles that pass the species check of [initialise]. *)
Theorem species_of_first_owner (s : Simulation) (part : Particle) :
  match species_of s part with
  | Returns sp =>
      (∃ before after,
         species s = before ++ sp :: after
         ∧ Forall (λ q, isSpecies q part = false) before
         ∧ isSpecies sp part = true)
      ∧ check_species_of part s = (Returns tt, s)
  | Throws e =>
      e = M_throw [Str "Could not find the species corresponding to particle ID=";
                   Cnt (getID part)]
      ∧ Forall (λ q, isSpecies q part = false) (species s)
      ∧ ∃ e', check_species_of part s = (Throws e', s)
  end.
Proof.
  destruct (check_species_of_owned s part) as [Hown Hnone].
  unfold species_of. pose proof (species_of_loop_spec (species s) part) as Hspec.
  destruct (species_of_loop (species s) part) as [sp|e] eqn:Hloop.
  - split; [done|]. apply Hown.
    destruct Hspec as (before & after & -> & _ & Hsp).
    rewrite existsb_app. simpl. rewrite Hsp. by rewrite orb_true_r.
  - assert (existsb (λ ptr, isSpecies ptr part) (species s) = false) as Hex.
    { clear Hloop Hown Hnone.
      induction Hspec as [|q l Hq _ IH]; simpl; [done|].
      rewrite Hq. exact IH. }
    split; [|split; [done | eexists; by apply Hnone]].
    clear Hspec Hex Hown Hnone. revert Hloop.
    induction (species s) as [|ptr l IH]; simpl.
    + by intros [= <-].
    + destruct (isSpecies ptr part); [done | exact IH].
Qed.

End SpeciesFacts.

Section CoverageFacts.
Context `{Components} `{!Behaviour}.

(** The message of the pair check for the indices [ID1] and [ID2]. *)
Definition no_interaction_between (ID1 ID2 : N) : exception :=
  M_throw [Str "There is no Interaction defined between particle ID=";
           Cnt ID1; Str " and particle ID="; Cnt ID2;
           Str ". Each particle pairing must have an Interaction defined"].

Lemma check_pairs_from_spec p1 ID1 ID2 l (s : Simulation) :
  match check_pairs_from p1 ID1 ID2 l s with
  | (Returns _, s') =>
      s' = s ∧ Forall (λ p2, ∃ ptr, getInteraction s p1 p2 = Returns ptr) l
  | (Throws e, s') =>
      s' = s
      ∧ ∃ k p2,
          l !! k = Some p2
          ∧ threw (getInteraction s p1 p2)
          ∧ e = no_interaction_between ID1 (ID2 + N.of_nat k)
  end.
Proof.
  revert ID2. induction l as [|p2 l IH]; intros ID2; simpl.
  - by split.
  - unfold mbind, M_bind, get at 1.
    destruct (getInteraction s p1 p2) as [ptr|e0] eqn:Hint.
    + specialize (IH (N.succ ID2)).
      destruct (check_pairs_from p1 ID1 (N.succ ID2) l s) as [[[]|e] s'].
      * destruct IH as [-> Hall]. split; [done|]. constructor; [eauto | done].
      * destruct IH as (-> & k & q & Hk & Hq & ->). split; [done|].
        exists (S k), q. repeat split; [done | done |].
        f_equal. lia.
    + split; [done|]. exists 0%nat, p2. repeat split.
      * by exists e0.
      * unfold no_interaction_between. by rewrite N.add_0_r.
Qed.

Lemma check_pairs_spec ID1 l (s : Simulation) :
  match check_pairs ID1 l s with
  | (Returns _, s') =>
      s' = s
      ∧ ∀ i j p q, (i ≤ j)%nat → l !! i = Some p → l !! j = Some q →
          ∃ ptr, getInteraction s p q = Returns ptr
  | (Throws e, s') =>
      s' = s
      ∧ ∃ i j p q,
          (i ≤ j)%nat ∧ l !! i = Some p ∧ l !! j = Some q
          ∧ threw (getInteraction s p q)
          ∧ e = no_interaction_between (ID1 + N.of_nat i) (ID1 + N.of_nat j)
  end.
Proof.
  revert ID1. induction l as [|p1 l IH]; intros ID1.
  - simpl. split; [done|]. by intros i j p q _ ?.
  - cbn [check_pairs]. unfold mbind, M_bind.
    pose proof (check_pairs_from_spec p1 ID1 ID1 (p1 :: l) s) as Hfrom.
    destruct (check_pairs_from p1 ID1 ID1 (p1 :: l) s) as [[[]|e] s1].
    + destruct Hfrom as [-> Hrow]. specialize (IH (N.succ ID1)).
      destruct (check_pairs (N.succ ID1) l s) as [[[]|e] s2].
      * destruct IH as [-> Hrest]. split; [done|].
        intros i j p q Hij Hi Hj. destruct i as [|i].
        -- injection Hi as <-.
           rewrite Forall_forall in Hrow. apply Hrow.
           by eapply list_elem_of_lookup_2.
        -- destruct j as [|j]; [lia|]. simpl in Hi, Hj.
           eapply (Hrest i j); [lia | done | done].
      * destruct IH as (-> & i & j & p & q & Hij & Hi & Hj & Hthrow & ->).
        split; [done|]. exists (S i), (S j), p, q.
        split_and!; [lia | done | done | done |].
        f_equal; lia.
    + destruct Hfrom as (-> & k & q & Hk & Hthrow & ->).
      split; [done|]. exists 0%nat, k, p1, q.
      split_and!; [lia | done | done | done |].
      f_equal; lia.
Qed.

(** X3. The pair check of [initialise] returns exactly when every pair
    of particles, a particle with itself included, has an interaction;
    otherwise it throws the message that names the list indices of a
    pair without one. It leaves the simulation as it was. *)
Theorem check_pairs_covers_all_pairs (s : Simulation) :
  match check_pairs 0 (particles s) s with
  | (Returns _, s') =>
      s' = s
      ∧ ∀ i j p q, (i ≤ j)%nat →
          particles s !! i = Some p → particles s !! j = Some q →
          ∃ ptr, getInteraction s p q = Returns ptr
  | (Throws e, s') =>
      s' = s
      ∧ ∃ i j p q,
          (i ≤ j)%nat
          ∧ particles s !! i = Some p ∧ particles s !! j = Some q
          ∧ threw (getInteraction s p q)
          ∧ e = no_interaction_between (N.of_nat i) (N.of_nat j)
  end.
Proof.
  pose proof (check_pairs_spec 0 (particles s) s) as Hspec.
  destruct (check_pairs 0 (particles s) s) as [[[]|e] s']; [done|].
  destruct Hspec as (-> & i & j & p & q & Hij & Hi & Hj & Hthrow & ->).
  split; [done|]. by exists i, j, p, q.
Qed.

End CoverageFacts.

Section LifecycleFacts.
Context `{Components} `{!Behaviour}.

Lemma bind_inv_Returns {A B} (m : M A) (f : A → M B) s b s' :
  (m ≫= f) s = (Returns b, s') →
  ∃ a s1, m s = (Returns a, s1) ∧ f a s1 = (Returns b, s').
Proof.
  unfold mbind, M_bind. destruct (m s) as [[a|e] s1]; [|done].
  intros Hf. by exists a, s1.
Qed.

(** Whatever the components do while they are initialised, the last two
    steps of [initialise] fix the print counter and the status. *)
Lemma initialise_from_interactions_final (s s' : Simulation) :
  initialise_from_interactions s = (Returns tt, s') →
  status s' = INITIALISED
  ∧ _nextPrint s' = wrap64 (eventCount s' + eventPrintInterval s').
Proof.
  unfold initialise_from_interactions. intros Hrun.
  repeat
    (let a := fresh "a" in
     let s1 := fresh "s" in
     let Hstep := fresh "Hstep" in
     apply bind_inv_Returns in Hrun as (a & s1 & Hstep & Hrun)).
  unfold modify, get in *. simplify_eq. by split.
Qed.

Lemma initialise_final (s0 s : Simulation) :
  initialise s0 = (Returns tt, s) →
  status s = INITIALISED
  ∧ _nextPrint s = wrap64 (eventCount s + eventPrintInterval s).
Proof.
  unfold initialise. intros Hrun.
  apply (bind_inv_Returns _ _ s0) in Hrun as (a1 & s1 & _ & Hrun).
  apply (bind_inv_Returns _ _ s1) in Hrun as (a2 & s2 & _ & Hrun).
  by apply (initialise_from_interactions_final s2).
Qed.

(** X4. [initialise] returns only in the state [INITIALISED], with the
    next print set one print interval after the current event count;
    from then on [addSpecies] and [addOutputPlugin] throw and leave the
    simulation as it is. *)
Theorem initialise_closes_configuration
    (getPlugin : string → Simulation → outcome OutputPlugin)
    (s0 s : Simulation) (sp : Species) (Name : string) :
  initialise s0 = (Returns tt, s) →
  status s = INITIALISED
  ∧ _nextPrint s = wrap64 (eventCount s + eventPrintInterval s)
  ∧ addSpecies sp s
    = (Throws (M_throw
         [Str "Cannot add species after simulation initialisation"]), s)
  ∧ addOutputPlugin getPlugin Name s
    = (Throws (M_throw [Str "Cannot add plugins now"]), s).
Proof.
  intros Hrun. destruct (initialise_final _ _ Hrun) as [Hst Hprint].
  split; [done|]. split; [done|].
  unfold addSpecies, addOutputPlugin, mbind, M_bind, get, throw.
  rewrite Hst. by split.
Qed.

(** X5. [reset] throws unless the simulation is initialised, leaving it
    as it is. On an initialised simulation it goes back to [START] with
    the clock, the event count and the last mean free time at zero and
    no output plugins, keeps [endEventCount], and leaves a simulation on
    which [runSimulationStep] throws "Bad state" and to which species
    can be added again. *)
Theorem reset_reopens_configuration
    (s : Simulation) (sp : Species) (silentMode : bool) :
  (status s ≠ INITIALISED →
     reset s
     = (Throws (M_throw
          [Str "Cannot reinitialise an un-initialised simulation"]), s))
  ∧ (status s = INITIALISED →
     ∃ s',
       reset s = (Returns tt, s')
       ∧ status s' = START
       ∧ systemTime s' = 0%R ∧ eventCount s' = 0%N
       ∧ nextPrintEvent s' = 0%N ∧ lastRunMFT s' = 0%R
       ∧ outputPlugins s' = []
       ∧ endEventCount s' = endEventCount s
       ∧ particles s'
         = Dynamics_updateAllParticles (dynamics s) (particles s)
       ∧ runSimulationStep silentMode s'
         = (Throws (M_throw [Str "Bad state for runSimulation()"]), s')
       ∧ addSpecies sp s'
         = (Returns tt, set_species (species s ++ [sp]) s')).
Proof.
  unfold reset, mbind, M_bind, get, throw, mret, M_ret, modify. split.
  - intros Hst. by destruct (status s).
  - intros ->. eexists. split; [reflexivity|]. by split_and!.
Qed.

End LifecycleFacts.

Section NodeNameFacts.
Variable Node : Type.
Variable Node_getName : Node → string.
Variable Node_getPath : Node → string.
Variable Node_getAttribute_Name : Node → outcome string.

(** The message for a node whose name has been seen before. *)
Definition not_unique (node : Node) (currentname : string) : exception :=
  M_throw
    [Str (Node_getName node); Str " at path :"; Str (Node_getPath node);
     Str endl; Str " Does not have a unique name (Name="; Str dquote;
     Str currentname; Str dquote; Str ")"].

Lemma checkNodeNameAttribute_loop_spec
    (nodes : list Node) (ns : list string) (names : gset string) :
  Forall2 (λ node n, Node_getAttribute_Name node = Returns n) nodes ns →
  match checkNodeNameAttribute_loop Node Node_getName Node_getPath
          Node_getAttribute_Name nodes names with
  | Returns _ => NoDup ns ∧ ∀ n, n ∈ ns → n ∉ names
  | Throws e =>
      ∃ nodes1 node nodes2 ns1 n ns2,
        nodes = nodes1 ++ node :: nodes2
        ∧ ns = ns1 ++ n :: ns2
        ∧ length nodes1 = length ns1
        ∧ NoDup ns1 ∧ (∀ m, m ∈ ns1 → m ∉ names)
        ∧ (n ∈ ns1 ∨ n ∈ names)
        ∧ e = not_unique node n
  end.
Proof.
  intros Hnames. revert names.
  induction Hnames as [|node n nodes ns Hn _ IH]; intros names; simpl.
  - split; [constructor|]. by intros n ?%elem_of_nil.
  - rewrite Hn. destruct (decide (n ∈ names)) as [Hin|Hnotin].
    + exists [], node, nodes, [], n, ns. split_and!; try done.
      * constructor.
      * by intros m ?%elem_of_nil.
      * by right.
    + specialize (IH (names ∪ {[n]})).
      destruct (checkNodeNameAttribute_loop _ _ _ _ nodes (names ∪ {[n]}))
        as [[]|e].
      * destruct IH as [Hnodup Hfresh]. split.
        -- constructor; [|done]. intros Hdup.
           apply (Hfresh n Hdup), elem_of_union. right.
           by apply elem_of_singleton.
        -- intros m [->|Hm]%elem_of_cons; [done|].
           intros Hmn. apply (Hfresh m Hm), elem_of_union. by left.
      * destruct IH as (nodes1 & node' & nodes2 & ns1 & n' & ns2
                        & -> & -> & Hlen & Hnodup & Hfresh & Hseen & ->).
        exists (node :: nodes1), node', nodes2, (n :: ns1), n', ns2.
        split_and!; try done.
        -- simpl. by rewrite Hlen.
        -- constructor; [|done]. intros Hdup.
           apply (Hfresh n Hdup), elem_of_union. right.
           by apply elem_of_singleton.
        -- intros m [->|Hm]%elem_of_cons; [done|].
           intros Hmn. apply (Hfresh m Hm), elem_of_union. by left.
        -- destruct Hseen as [Hseen|Hseen]; [left; by right|].
           apply elem_of_union in Hseen as [Hseen|Hseen%elem_of_singleton].
           ++ by right.
           ++ left. subst. left.
Qed.

(** X6. Over nodes that all carry a [Name] attribute,
    [checkNodeNameAttribute] returns exactly when no two nodes share a
    name; otherwise it throws at the first node whose name an earlier
    node has, with the message that gives that node and that name. *)
Theorem checkNodeNameAttribute_unique_names
    (nodes : list Node) (ns : list string) :
  Forall2 (λ node n, Node_getAttribute_Name node = Returns n) nodes ns →
  match checkNodeNameAttribute Node Node_getName Node_getPath
          Node_getAttribute_Name nodes with
  | Returns _ => NoDup ns
  | Throws e =>
      ¬ NoDup ns
      ∧ ∃ nodes1 node nodes2 ns1 n ns2,
          nodes = nodes1 ++ node :: nodes2
          ∧ ns = ns1 ++ n :: ns2
          ∧ length nodes1 = length ns1
          ∧ NoDup ns1 ∧ n ∈ ns1
          ∧ e = not_unique node n
  end.
Proof.
  intros Hnames. unfold checkNodeNameAttribute.
  pose proof (checkNodeNameAttribute_loop_spec nodes ns ∅ Hnames) as Hspec.
  destruct (checkNodeNameAttribute_loop _ _ _ _ nodes ∅) as [[]|e].
  - by destruct Hspec.
  - destruct Hspec as (nodes1 & node & nodes2 & ns1 & n & ns2
                       & -> & -> & Hlen & Hnodup & _ & Hseen & ->).
    destruct Hseen as [Hseen|Hseen]; [|by apply not_elem_of_empty in Hseen].
    split.
    + intros (_ & Hdisj & _)%NoDup_app. apply (Hdisj n Hseen). left.
    + by exists nodes1, node, nodes2, ns1, n, ns2.
Qed.

End NodeNameFacts.

(** *** File names *)

(** [std::string(fileName.end() - n, fileName.end())]: the last [n]
    characters; with fewer than [n] characters the first iterator is
    before the start of the string, which is undefined and [None] here. *)
Definition last_chars (n : nat) (fileName : string) : option string :=
  let chars := String.list_ascii_of_string fileName in
  if decide (n ≤ length chars)%nat
  then Some (String.string_of_list_ascii (drop (length chars - n) chars))
  else None.

(** The opening of the input of [loadXMLfile]: [exists] is
    [boost::filesystem::exists(fileName)]; the result tells whether the
    bzip2 decompressor is pushed. *)
Definition open_input (exists_ : bool) (fileName : string)
  : option (outcome bool) :=
  if negb exists_ then
    Some (Throws (M_throw
      [Str "Could not find the XML file named "; Str fileName;
       Str endl; Str "Please check the file exists."]))
  else
    tail8 ← last_chars 8 fileName;
    if String.eqb tail8 ".xml.bz2" then Some (Returns true)
    else
      tail4 ← last_chars 4 fileName;
      if negb (String.eqb tail4 ".xml")
      then Some (Throws (M_throw [Str "Unrecognized extension for xml file"]))
      else Some (Returns false).

(** The opening of the output of [writeXMLfile] and [outputData]:
    whether the bzip2 compressor is pushed. *)
Definition open_output (fileName : string) : option bool :=
  tail4 ← last_chars 4 fileName;
  Some (String.eqb tail4 ".bz2").

(** [fileName] ends in [ext]. *)
Definition ends_with (ext fileName : string) : Prop :=
  String.list_ascii_of_string ext `suffix_of` String.list_ascii_of_string fileName.

Section FileNameFacts.

Lemma last_chars_ends_with (ext fileName : string) :
  last_chars (length (String.list_ascii_of_string ext)) fileName = Some ext
  ↔ ends_with ext fileName.
Proof.
  unfold last_chars, ends_with.
  set (e := String.list_ascii_of_string ext).
  set (l := String.list_ascii_of_string fileName).
  split.
  - case_decide as Hlen; [|done]. intros [= Hdrop].
    apply (f_equal String.list_ascii_of_string) in Hdrop.
    rewrite String.list_ascii_of_string_of_list_ascii in Hdrop. fold e in Hdrop.
    exists (take (length l - length e) l).
    rewrite <- Hdrop at 2. by rewrite take_drop.
  - intros [k Hk]. rewrite Hk, length_app.
    rewrite decide_True by lia.
    replace (length k + length e - length e)%nat with (length k) by lia.
    rewrite drop_app_length. unfold e.
    by rewrite String.string_of_list_ascii_of_string.
Qed.

Lemma last_chars_short (n : nat) (fileName : string) :
  (length (String.list_ascii_of_string fileName) < n)%nat →
  last_chars n fileName = None.
Proof. intros Hlen. unfold last_chars. by rewrite decide_False by lia. Qed.

Lemma last_chars_long (n : nat) (fileName : string) :
  (n ≤ length (String.list_ascii_of_string fileName))%nat →
  ∃ tail, last_chars n fileName = Some tail.
Proof. intros Hlen. unfold last_chars. rewrite decide_True by done. eauto. Qed.

(** X7. For a file that exists and a name of at least 8 characters,
    [loadXMLfile] decompresses exactly the names that end in
    [.xml.bz2], reads as they are the other names that end in [.xml],
    and refuses every other name with "Unrecognized extension for xml
    file". A missing file is reported before the name is looked at. A
    name of fewer than 8 characters, [a.xml] for one, makes the first
    comparison read before the start of the string. *)
Theorem open_input_by_extension (fileName : string) :
  let len := length (String.list_ascii_of_string fileName) in
  open_input false fileName
  = Some (Throws (M_throw
      [Str "Could not find the XML file named "; Str fileName;
       Str endl; Str "Please check the file exists."]))
  ∧ ((len < 8)%nat → open_input true fileName = None)
  ∧ ((8 ≤ len)%nat →
     (ends_with ".xml.bz2" fileName →
        open_input true fileName = Some (Returns true))
     ∧ (¬ ends_with ".xml.bz2" fileName → ends_with ".xml" fileName →
        open_input true fileName = Some (Returns false))
     ∧ (¬ ends_with ".xml.bz2" fileName → ¬ ends_with ".xml" fileName →
        open_input true fileName
        = Some (Throws (M_throw [Str "Unrecognized extension for xml file"]))))
  ∧ open_input true "a.xml" = None.
Proof.
  intros len. split; [done|]. split; [|split; [|done]].
  - intros Hshort. unfold open_input. simpl.
    rewrite (last_chars_short 8); [reflexivity | fold len; lia].
  - intros Hlong. unfold open_input. simpl.
    destruct (last_chars_long 8 fileName Hlong) as [tail8 H8].
    destruct (last_chars_long 4 fileName ltac:(fold len; lia)) as [tail4 H4].
    rewrite H8, H4. simpl.
    pose proof (last_chars_ends_with ".xml.bz2" fileName) as Hbz.
    pose proof (last_chars_ends_with ".xml" fileName) as Hxml.
    simpl in Hbz, Hxml. rewrite H8 in Hbz. rewrite H4 in Hxml.
    destruct (String.eqb_spec tail8 ".xml.bz2") as [->|Hne8];
      destruct (String.eqb_spec tail4 ".xml") as [->|Hne4]; simpl;
      split_and!; intros; try done;
      try (exfalso; tauto);
      try (exfalso; apply Hne8; apply Hbz in H; congruence);
      try (exfalso; apply Hne4; apply Hxml in H0; congruence).
Qed.

(** X8. [writeXMLfile] and [outputData] compress exactly the names that
    end in [.bz2] and write every other name of at least 4 characters
    as it is, whatever its extension; a shorter name makes the
    comparison read before the start of the string. *)
Theorem open_output_by_extension (fileName : string) :
  let len := length (String.list_ascii_of_string fileName) in
  ((len < 4)%nat → open_output fileName = None)
  ∧ ((4 ≤ len)%nat →
     (ends_with ".bz2" fileName → open_output fileName = Some true)
     ∧ (¬ ends_with ".bz2" fileName → open_output fileName = Some false)).
Proof.
  intros len. split.
  - intros Hshort. unfold open_output. by rewrite last_chars_short.
  - intros Hlong. unfold open_output.
    destruct (last_chars_long 4 fileName Hlong) as [tail4 H4].
    rewrite H4. simpl.
    pose proof (last_chars_ends_with ".bz2" fileName) as Hbz.
    simpl in Hbz. rewrite H4 in Hbz.
    destruct (String.eqb_spec tail4 ".bz2") as [->|Hne]; split; intros Hend;
      try done.
    + exfalso. tauto.
    + exfalso. apply Hne. apply Hbz in Hend. congruence.
Qed.

End FileNameFacts.

Section LoadFacts.
Context `{Components}.
Variable loadComponents : Document → M unit.
Variable loadEnsemble : M unit.

(** X9. [loadXMLfile] refuses to load into a simulation that is not in
    the state [START], and refuses a document whose version is not
    1.5.0; in both cases it throws before anything is read, leaving the
    simulation as it was and the component factories uncalled. *)
Theorem loadXMLfile_refuses (doc : Document) (s : Simulation) :
  (status s ≠ START →
     loadXMLfile loadComponents loadEnsemble doc s
     = (Throws (M_throw [Str "Loading config at wrong time, status = ";
                         Cnt (status_rank (status s))]), s))
  ∧ (status s = START → doc_version doc ≠ "1.5.0" →
     loadXMLfile loadComponents loadEnsemble doc s
     = (Throws (M_throw
          [Str "This version of the config file is obsolete";
           Str endl; Str "The current version is "; Str "1.5.0";
           Str endl;
           Str "Please look at the XMLFILE.VERSION file in the root directory of the dynamo source."]),
        s)).
Proof.
  unfold loadXMLfile, mbind, M_bind, get, throw, mret, M_ret. split.
  - intros Hst. by destruct (status s).
  - intros -> Hver.
    destruct (String.eqb_spec (doc_version doc) configFileVersion) as [Heq|_];
      [by destruct Hver|done].
Qed.

End LoadFacts.

(** *** Volumes and the centre of mass *)

(** [a + b] and [a - b] on vectors. *)
Definition vadd (a b : Vector) : Vector :=
  mkVector (vx a + vx b) (vy a + vy b) (vz a + vz b).
Definition vsub (a b : Vector) : Vector :=
  mkVector (vx a - vx b) (vy a - vy b) (vz a - vz b).

Section CentreOfMass.
Context `{Components}.
(** [std::isinf(mass)]: an infinite mass marks an immobile particle and
    is outside the real numbers [getMass] returns here. *)
Variable mass_isinf : Species → N → bool.
(** [BCs->applyBC(pos, vel)], on copies of the position and velocity. *)
Variable applyBC : BoundaryCondition → Vector → Vector → Vector * Vector.

(** The first loop of [Simulation::setCOMVelocity]: the momentum and
    the mass of the particles of finite mass. *)
Fixpoint momentum_loop (s : Simulation) (l : list Particle)
    (sumMV : Vector) (sumMass : R) : outcome (Vector * R) :=
  match l with
  | [] => Returns (sumMV, sumMass)
  | Part :: rest =>
      match species_of s Part with
      | Throws e => Throws e
      | Returns sp =>
          let mass := getMass sp (getID Part) in
          if mass_isinf sp (getID Part) then momentum_loop s rest sumMV sumMass
          else
            let '(pos, vel) :=
              applyBC (BCs s) (getPosition Part) (getVelocity Part) in
            momentum_loop s rest (vadd sumMV (vscale vel mass))
              (sumMass + mass)%R
      end
  end.

(** The second loop: every particle of finite mass gets [change] added
    to its velocity; a throw leaves the particles before it changed. *)
Fixpoint shift_loop (s : Simulation) (change : Vector) (l : list Particle)
  : outcome unit * list Particle :=
  match l with
  | [] => (Returns tt, [])
  | Part :: rest =>
      match species_of s Part with
      | Throws e => (Throws e, Part :: rest)
      | Returns sp =>
          let '(r, rest') := shift_loop s change rest in
          if mass_isinf sp (getID Part) then (r, Part :: rest')
          else
            (r, mkParticle (getID Part) (getPosition Part)
                  (vadd (getVelocity Part) change) :: rest')
      end
  end.

(** [Simulation::setCOMVelocity]. *)
Definition setCOMVelocity (COMVelocity : Vector) : M unit :=
  λ s,
    match momentum_loop s (particles s) (mkVector 0 0 0) 0%R with
    | Throws e => (Throws e, s)
    | Returns (sumMV, sumMass) =>
        let sumMV := vdiv sumMV sumMass in
        let change := vsub COMVelocity sumMV in
        let '(r, l) := shift_loop s change (particles s) in
        (r, set_particles l s)
    end.

End CentreOfMass.

Section VolumeFacts.
Context `{Components} `{!Behaviour}.

Lemma check_self_interaction_eq (s : Simulation) p :
  check_self_interaction p s =
    match getInteraction s p p with
    | Returns _ => (Returns tt, s)
    | Throws _ =>
        (Throws (M_throw
           [Str "The particle (ID="; Cnt (getID p);
            Str ") does not have a self Interaction defined. Self Interactions are not used for the dynamics of the system, but are used to draw/visualise the particles, as well as calculate the excluded volume and other properties. Please add a self-Interaction"]),
         s)
    end.
Proof.
  unfold check_self_interaction, mbind, M_bind, get.
  by destruct (getInteraction s p p).
Qed.

Lemma excluded_volume_loop_spec (s : Simulation) l volume :
  match excluded_volume_loop s l volume with
  | Returns total =>
      for_each check_self_interaction l s = (Returns tt, s)
      ∧ ∃ vols,
          Forall2 (λ p v, ∃ ptr, getInteraction s p p = Returns ptr
                                 ∧ v = getExcludedVolume ptr (getID p)) l vols
          ∧ total = (volume + foldr Rplus 0 vols)%R
  | Throws e =>
      (∃ e', for_each check_self_interaction l s = (Throws e', s))
      ∧ ∃ p, p ∈ l ∧ getInteraction s p p = Throws e
  end.
Proof.
  revert volume. induction l as [|p l IH]; intros volume; simpl.
  - split; [done|]. exists []. split; [constructor | simpl; lra].
  - unfold mbind, M_bind. rewrite check_self_interaction_eq.
    destruct (getInteraction s p p) as [ptr|e] eqn:Hint; simpl.
    + specialize (IH (volume + getExcludedVolume ptr (getID p))%R).
      destruct (excluded_volume_loop s l _) as [total|e].
      * destruct IH as (Hcheck & vols & Hvols & ->). split; [done|].
        exists (getExcludedVolume ptr (getID p) :: vols). split.
        -- constructor; [exists ptr; by split | done].
        -- simpl. lra.
      * destruct IH as ((e' & Hcheck) & q & Hq & Hthrow). split.
        -- by exists e'.
        -- exists q. split; [by right | done].
    + split; [by eexists|]. exists p. split; [left | done].
Qed.

(** X10. [getPackingFraction] returns exactly for the simulations that
    pass the self-interaction check of [initialise]; it then gives the
    sum, over the particles, of the excluded volume that the first
    interaction accepting the particle with itself assigns to it,
    divided by the product of the three sides of the primary image.
    Otherwise it passes on the exception of [getInteraction] for a
    particle without a self-interaction. *)
Theorem getPackingFraction_after_self_check (s : Simulation) :
  match getPackingFraction s with
  | Returns φ =>
      for_each check_self_interaction (particles s) s = (Returns tt, s)
      ∧ ∃ vols,
          Forall2 (λ p v, ∃ ptr, getInteraction s p p = Returns ptr
                                 ∧ v = getExcludedVolume ptr (getID p))
            (particles s) vols
          ∧ φ = (foldr Rplus 0 vols
                 / (vx (primaryCellSize s) * vy (primaryCellSize s)
                    * vz (primaryCellSize s)))%R
  | Throws e =>
      (∃ e', for_each check_self_interaction (particles s) s = (Throws e', s))
      ∧ ∃ p, p ∈ particles s ∧ getInteraction s p p = Throws e
  end.
Proof.
  unfold getPackingFraction.
  pose proof (excluded_volume_loop_spec s (particles s) 0%R) as Hspec.
  destruct (excluded_volume_loop s (particles s) 0%R) as [total|e]; [|done].
  destruct Hspec as (Hcheck & vols & Hvols & ->). split; [done|].
  exists vols. split; [done|].
  unfold getSimVolume. simpl. f_equal; lra.
Qed.

End VolumeFacts.

Section CentreOfMassFacts.
Context `{Components}.
Variable mass_isinf : Species → N → bool.
Variable applyBC : BoundaryCondition → Vector → Vector → Vector * Vector.

Lemma Vector_eq (a b : Vector) :
  vx a = vx b → vy a = vy b → vz a = vz b → a = b.
Proof. destruct a, b. simpl. by intros -> -> ->. Qed.

(** The species of a particle depends on its ID alone. *)
Definition species_by_ID (s : Simulation) : Prop :=
  ∀ ptr p q, ptr ∈ species s → getID p = getID q → isSpecies ptr p = isSpecies ptr q.

Lemma species_of_loop_by_ID l p q :
  (∀ ptr, ptr ∈ l → isSpecies ptr p = isSpecies ptr q) →
  ∀ sp, species_of_loop l p = Returns sp → species_of_loop l q = Returns sp.
Proof.
  intros Hsame. induction l as [|ptr l IH]; simpl; [done|].
  rewrite <- (Hsame ptr) by left.
  destruct (isSpecies ptr p); [done|].
  apply IH. intros ptr' Hin. apply Hsame. by right.
Qed.

(** After the second loop, the first loop finds the old momentum plus
    [change] times the finite mass, whatever it starts from. *)
Lemma shift_loop_momentum (s s' : Simulation) (change : Vector) l :
  species s' = species s → BCs s' = BCs s →
  species_by_ID s →
  (∀ bc pos vel, (applyBC bc pos vel).2 = vel) →
  ∀ P M P' M',
    momentum_loop mass_isinf applyBC s l P M = Returns (P', M') →
    ∃ l',
      shift_loop mass_isinf s change l = (Returns tt, l')
      ∧ getID <$> l' = getID <$> l
      ∧ getPosition <$> l' = getPosition <$> l
      ∧ ∀ Q Mq,
          momentum_loop mass_isinf applyBC s' l' Q Mq
          = Returns (vadd (vadd Q (vsub P' P)) (vscale change (M' - M)),
                     (Mq + (M' - M))%R).
Proof.
  intros Hspecies HBC HbyID Hvel.
  induction l as [|Part l IH]; intros P M P' M'; simpl.
  - intros [= <- <-]. exists []. split_and!; try done.
    intros Q Mq. simpl. f_equal. f_equal; [|lra].
    apply Vector_eq; simpl; lra.
  - destruct (species_of s Part) as [sp|e] eqn:Hsp; [|done].
    destruct (mass_isinf sp (getID Part)) eqn:Hinf.
    + intros Hrest. destruct (IH _ _ _ _ Hrest) as (l' & -> & HID & Hpos & Hmom).
      exists (Part :: l'). split_and!.
      * done.
      * by rewrite !fmap_cons, HID.
      * by rewrite !fmap_cons, Hpos.
      * intros Q Mq. simpl. unfold species_of in *. rewrite Hspecies, Hsp, Hinf.
        apply Hmom.
    + destruct (applyBC (BCs s) (getPosition Part) (getVelocity Part))
        as [pos vel] eqn:HBCs.
      assert (vel = getVelocity Part) as ->.
      { pose proof (Hvel (BCs s) (getPosition Part) (getVelocity Part)) as Hv.
        by rewrite HBCs in Hv. }
      intros Hrest. destruct (IH _ _ _ _ Hrest) as (l' & -> & HID & Hpos & Hmom).
      eexists. split; [reflexivity|]. split_and!.
      * by rewrite !fmap_cons, HID.
      * by rewrite !fmap_cons, Hpos.
      * intros Q Mq. cbn [momentum_loop].
        assert (species_of s'
                  (mkParticle (getID Part) (getPosition Part)
                     (vadd (getVelocity Part) change)) = Returns sp) as ->.
        { unfold species_of in *. rewrite Hspecies.
          apply (species_of_loop_by_ID _ Part); [|done].
          intros ptr Hin. by apply HbyID. }
        simpl. rewrite Hinf.
        destruct (applyBC (BCs s') (getPosition Part)
                    (vadd (getVelocity Part) change)) as [pos' vel'] eqn:HBCs'.
        assert (vel' = vadd (getVelocity Part) change) as ->.
        { pose proof (Hvel (BCs s') (getPosition Part)
                        (vadd (getVelocity Part) change)) as Hv.
          by rewrite HBCs' in Hv. }
        rewrite Hmom. f_equal. f_equal; [|lra].
        apply Vector_eq; simpl; lra.
Qed.

(** X11. When the boundary condition leaves velocities as they are, the
    species of a particle depends on its ID alone and the particles of
    finite mass have a total mass that is not zero, [setCOMVelocity]
    returns, changes velocities only, and leaves the particles of
    finite mass with the total momentum of their total mass moving at
    the given velocity: the centre of mass moves at [COMVelocity]. *)
Theorem setCOMVelocity_sets_momentum
    (s : Simulation) (COMVelocity sumMV : Vector) (sumMass : R) :
  species_by_ID s →
  (∀ bc pos vel, (applyBC bc pos vel).2 = vel) →
  momentum_loop mass_isinf applyBC s (particles s) (mkVector 0 0 0) 0%R
  = Returns (sumMV, sumMass) →
  sumMass ≠ 0%R →
  ∃ l',
    setCOMVelocity mass_isinf applyBC COMVelocity s
    = (Returns tt, set_particles l' s)
    ∧ getID <$> l' = getID <$> particles s
    ∧ getPosition <$> l' = getPosition <$> particles s
    ∧ momentum_loop mass_isinf applyBC (set_particles l' s) l'
        (mkVector 0 0 0) 0%R
      = Returns (vscale COMVelocity sumMass, sumMass).
Proof.
  intros HbyID Hvel Hmom Hmass.
  pose (change := vsub COMVelocity (vdiv sumMV sumMass)).
  destruct (shift_loop_momentum s s change
              (particles s) eq_refl eq_refl HbyID Hvel _ _ _ _ Hmom)
    as (l' & Hshift & HID & Hpos & _).
  destruct (shift_loop_momentum s (set_particles l' s) change
              (particles s) eq_refl eq_refl HbyID Hvel _ _ _ _ Hmom)
    as (l'' & Hshift' & _ & _ & Hafter).
  assert (l'' = l') as -> by congruence.
  exists l'. split_and!; try done.
  - unfold setCOMVelocity. rewrite Hmom. fold change. by rewrite Hshift.
  - rewrite Hafter. f_equal. f_equal; [|lra].
    apply Vector_eq; unfold change; simpl; field; done.
Qed.

End CentreOfMassFacts.

(** *** The theorems at work on the small configuration *)

Lemma initialise_closes_configuration_witness :
  let s :=
    (@initialise demo_components (demo_behaviour demo_event)
       (demo_box START BCNone demo_units 10 0 1)).2 in
  status s = INITIALISED.
Proof.
  refine (proj1
    (@initialise_closes_configuration demo_components
       (demo_behaviour demo_event) (λ _ _, Returns tt)
       (demo_box START BCNone demo_units 10 0 1) _
       (mkSpecies "Walls" (λ _, false) 0 (λ _, 1%R)) "Misc" _)).
  vm_compute. reflexivity.
Defined.

(** Two species that share the name [Bulk]. *)
Lemma checkNodeNameAttribute_unique_names_witness :
  ¬ NoDup ["Bulk"; "Walls"; "Bulk"].
Proof.
  refine (proj1
    (checkNodeNameAttribute_unique_names string (λ _, "Species")
       (λ _, "/DynamOconfig/Simulation/Genus/Species") Returns
       ["Bulk"; "Walls"; "Bulk"] ["Bulk"; "Walls"; "Bulk"] _)).
  repeat constructor.
Defined.

(** A particle of mass 1 moving at 3 along x is set to move at 1. *)
Lemma setCOMVelocity_sets_momentum_witness :
  ∃ l',
    @setCOMVelocity demo_components (λ _ _, false) (λ _ pos vel, (pos, vel))
      (mkVector 1 0 0) (demo_box INITIALISED BCNone demo_units 10 3 1)
    = (Returns tt,
       set_particles l' (demo_box INITIALISED BCNone demo_units 10 3 1))
    ∧ getID <$> l' = [0%N].
Proof.
  destruct (@setCOMVelocity_sets_momentum demo_components
              (λ _ _, false) (λ _ pos vel, (pos, vel))
              (demo_box INITIALISED BCNone demo_units 10 3 1)
              (mkVector 1 0 0)
              (vadd (mkVector 0 0 0) (vscale (mkVector 3 0 0) 1))
              (0 + 1)%R)
    as (l' & Hset & HID & _).
  - intros ptr p q Hin _. apply list_elem_of_singleton in Hin as ->.
    reflexivity.
  - done.
  - reflexivity.
  - lra.
  - by exists l'.
Defined.

(** *** The system ticker *)

Section TickerFacts.
Context `{Components} `{!Behaviour}.

Lemma existsb_ticker_false (l : list System) :
  Forall (λ ptr, System_getName ptr ≠ "SystemTicker") l →
  existsb (λ ptr, String.eqb (System_getName ptr) "SystemTicker") l = false.
Proof.
  induction 1 as [|ptr l Hptr _ IH]; [done|]. simpl. rewrite IH.
  by apply String.eqb_neq in Hptr as ->.
Qed.

Lemma existsb_ticker_true (l : list System) :
  Exists (λ ptr, System_getName ptr = "SystemTicker") l →
  existsb (λ ptr, String.eqb (System_getName ptr) "SystemTicker") l = true.
Proof.
  induction 1 as [ptr l Hptr | ptr l _ IH]; simpl.
  - by apply String.eqb_eq in Hptr as ->.
  - rewrite IH. apply orb_true_r.
Qed.

(** X22. There is never more than one system ticker. When the ticker
    that [addSystemTicker] builds goes by the name [SystemTicker], the
    call appends it to the systems if none of them has that name, and a
    second call then throws and leaves the simulation as it is, as does
    any call on a simulation that holds a system of that name. *)
Theorem addSystemTicker_only_once (s : Simulation) :
  (∀ mft, System_getName (new_SysTicker mft) = "SystemTicker") →
  (Forall (λ ptr, System_getName ptr ≠ "SystemTicker") (systems s) →
   ∃ s',
     addSystemTicker s = (Returns tt, s')
     ∧ systems s' = systems s ++ [new_SysTicker (lastRunMFT s)]
     ∧ addSystemTicker s'
       = (Throws (M_throw [Str "System Ticker already exists"]), s'))
  ∧ (Exists (λ ptr, System_getName ptr = "SystemTicker") (systems s) →
     addSystemTicker s
     = (Throws (M_throw [Str "System Ticker already exists"]), s)).
Proof.
  intros Hname. split.
  - intros Hnone. eexists. split_and!.
    + unfold addSystemTicker, mbind, M_bind, get, modify.
      by rewrite (existsb_ticker_false _ Hnone).
    + done.
    + unfold addSystemTicker, mbind, M_bind, get, throw.
      rewrite existsb_ticker_true; [done|]. simpl.
      apply Exists_app. right. by left.
  - intros Hsome. unfold addSystemTicker, mbind, M_bind, get, throw.
    by rewrite (existsb_ticker_true _ Hsome).
Qed.

End TickerFacts.

(** Components whose systems are their names. *)
Definition named_components : Components :=
  {| Dynamics := unit; Scheduler := list R; System := string; Local := unit;
     Global := unit; OutputPlugin := unit; Ensemble := R |}.

Section NamedConfiguration.
#[local] Existing Instance named_components.

Definition named_behaviour : Behaviour :=
  {| Species_initialise := λ _, mret tt;
     Dynamics_initialise := mret tt;
     Interaction_initialise := λ _ _, mret tt;
     Local_initialise := λ _ _, mret tt;
     Global_initialise := λ _ _, mret tt;
     System_initialise := λ _ _, mret tt;
     Ensemble_initialise := mret tt;
     Scheduler_initialise := mret tt;
     OutputPlugin_initialise := λ _, mret tt;
     Scheduler_is_null := λ _, false;
     new_GPBCSentinel := tt;
     is_OPTicker := λ _, false;
     System_getName := λ name, name;
     new_SysTicker := λ _, "SystemTicker";
     sort_outputPlugins := λ l, l;
     Scheduler_runNextEvent := mret tt;
     OutputPlugin_periodicOutput := λ _, mret tt;
     Dynamics_updateAllParticles := λ _ l, l;
     Dynamics_replicaExchange := λ a b, (a, b);
     System_replicaExchange := λ a b, (a, b);
     OutputPlugin_replicaExchange := λ a b, (a, b);
     OutputPlugin_temperatureRescale := λ _ p, p;
     Scheduler_rescaleTimes := λ k times, map (λ t, (t * k)%R) times;
     Scheduler_rebuildSystemEvents := λ _ sched, sched;
     Ensemble_val2 := λ T, T;
     Ensemble_swap := λ a b, (b, a) |}.

(** A simulation whose only system is a thermostat. *)
Definition named_box : Simulation :=
  mkSimulation 0 0 100000 50000 0 0 (mkVector 10 10 10) 0 START demo_units
    [mkParticle 0 (mkVector 0 0 0) (mkVector 0 0 0)]
    [mkSpecies "Bulk" (λ _, true) 1 (λ _, 1%R)]
    BCNone tt [demo_interaction] [] [] ["Thermostat"] 1%R [] [].

End NamedConfiguration.

Lemma addSystemTicker_only_once_witness :
  ∃ s',
    @addSystemTicker named_components named_behaviour named_box
    = (Returns tt, s')
    ∧ @systems named_components s' = ["Thermostat"; "SystemTicker"].
Proof.
  destruct (proj1 (@addSystemTicker_only_once named_components named_behaviour
                     named_box (λ _, eq_refl)))
    as (s' & Hadd & Hsystems & _).
  - repeat constructor. simpl. congruence.
  - by exists s'.
Defined.

End Sim.

(** ** The spherical-top species ([sphericalTop.cpp]) *)

Module SphericalTop.

(** The members the XML code of the class reads and writes. *)
Record SpSphericalTop : Type := mkSpSphericalTop {
  spName : string;
  intName : string;
  mass_name : string;
  inertiaConstant : R
}.

(** The attributes of a [Species] node. [getAttribute("InertiaConstant")]
    throws when the node has no such attribute ([Throws]); the text of
    an attribute that is there converts to a [double] or makes
    [as<double>()] throw [boost::bad_lexical_cast] ([Returns None]). *)
Record Node : Type := mkNode {
  attr_InertiaConstant : outcome (option R);
  attr_Mass : string;
  attr_Name : string;
  attr_IntName : string;
  attr_Type : string
}.

Section XML.
(** [SpPoint::operator<<], which loads the members of the base class
    and throws what its own reads throw. *)
Variable SpPoint_load : Node → SpSphericalTop → outcome SpSphericalTop.

(** [SpSphericalTop::operator<<]: only the failed conversion is caught
    and replaced by the message of this class. *)
Definition load (u : Sim.Units) (XML : Node) (sp : SpSphericalTop)
  : outcome SpSphericalTop :=
  match SpPoint_load XML sp with
  | Throws e => Throws e
  | Returns sp =>
      match attr_InertiaConstant XML with
      | Throws e => Throws e
      | Returns None =>
          Throws (M_throw [Str "Failed a lexical cast in CSSphericalTop"])
      | Returns (Some value) =>
          Returns (mkSpSphericalTop (spName sp) (intName sp) (mass_name sp)
                     (value * Sim.unitArea u))
      end
  end.

(** [SpSphericalTop::outputXML]. *)
Definition outputXML (u : Sim.Units) (sp : SpSphericalTop) (type : string)
  : Node :=
  mkNode (Returns (Some (inertiaConstant sp / Sim.unitArea u)%R)) (mass_name sp)
    (spName sp) (intName sp) type.

(** On this path load multiplies by the area unit and save divides by
    it: a value [value] is loaded as [value * unitArea] and a constant
    is written as [inertiaConstant / unitArea]. As real numbers the two
    are inverse to each other for a non-zero unit; the products and
    quotients of the [double]s round. *)
Lemma load_outputXML_InertiaConstant (u : Sim.Units) (XML : Node)
    (sp sp1 : SpSphericalTop) (value : R) (type : string) :
  Sim.unitLength u ≠ 0%R →
  SpPoint_load XML sp = Returns sp1 →
  attr_InertiaConstant XML = Returns (Some value) →
  ∃ sp',
    load u XML sp = Returns sp'
    ∧ inertiaConstant sp' = (value * Sim.unitArea u)%R
    ∧ attr_InertiaConstant (outputXML u sp' type) = Returns (Some value).
Proof.
  intros Hu Hbase Hattr. unfold load. rewrite Hbase, Hattr.
  eexists. split; [reflexivity|]. split; [reflexivity|].
  unfold outputXML, Sim.unitArea. simpl. do 2 f_equal. by field.
Qed.

Lemma outputXML_load_InertiaConstant (u : Sim.Units)
    (sp sp0 sp1 : SpSphericalTop) (type : string) :
  SpPoint_load (outputXML u sp type) sp0 = Returns sp1 →
  ∃ sp',
    load u (outputXML u sp type) sp0 = Returns sp'
    ∧ inertiaConstant sp'
      = (inertiaConstant sp / Sim.unitArea u * Sim.unitArea u)%R.
Proof.
  intros Hbase. unfold load. rewrite Hbase. simpl.
  eexists. split; reflexivity.
Qed.

End XML.

End SphericalTop.

(** ** The compression plugin ([compression.cpp]) *)

Module Compression.
Import Sim.

(** [pow(x, y)] for a positive base. *)
Definition pow (x y : R) : R := Rpower x y.

Section Plugin.
Context `{Components}.
(** [new SystHalt(Sim, dt, name)]: a system event that halts the run at
    time [dt]. *)
Variable new_SystHalt : R → string → System.

Record IPCompression : Type := mkIPCompression { growthRate : R }.

(** [IPCompression::limitPackingFraction]. *)
Definition limitPackingFraction (plugin : IPCompression) (targetp : R)
  : M unit :=
  s ← get;
  match getPackingFraction s with
  | Throws e => λ s, (Throws e, s)
  | Returns packfrac =>
      if Rlt_dec targetp packfrac then
        throw [Str "Target packing fraction is lower than current!"]
      else
        modify (λ s,
          set_systems
            (systems s ++
               [new_SystHalt
                  ((pow (targetp / packfrac) (1 / 3) - 1) / growthRate plugin)
                  "CompresionLimiter"]) s)
  end.

End Plugin.

Section PluginFacts.
Context `{Components}.
Variable new_SystHalt : R → string → System.

(** The cube of the cube root. *)
Lemma pow_third_cubed (x : R) :
  (0 < x)%R → (pow x (1 / 3) * pow x (1 / 3) * pow x (1 / 3))%R = x.
Proof.
  intros Hx. unfold pow.
  rewrite <- !Rpower_plus.
  replace (1 / 3 + 1 / 3 + 1 / 3)%R with 1%R by lra.
  by apply Rpower_1.
Qed.

(** C9. With a current packing fraction [φ > 0] and a growth rate
    [γ > 0], [limitPackingFraction target] with [target >= φ] adds a halt
    event at time [((target / φ)^(1/3) - 1) / γ] to the systems and
    changes nothing else; that is the time [τ] at which
    [φ (1 + γ τ)^3 = target]. With [target < φ] it throws and leaves the
    simulation as it was. *)
Theorem limitPackingFraction_halt_time
    (plugin : IPCompression) (s : Simulation) (φ target : R) :
  getPackingFraction s = Returns φ →
  (0 < φ)%R →
  (0 < growthRate plugin)%R →
  let γ := growthRate plugin in
  let τ := ((pow (target / φ) (1 / 3) - 1) / γ)%R in
  ((φ <= target)%R →
     limitPackingFraction new_SystHalt plugin target s
     = (Returns tt,
        set_systems (systems s ++ [new_SystHalt τ "CompresionLimiter"]) s)
     ∧ (φ * ((1 + γ * τ) * (1 + γ * τ) * (1 + γ * τ)))%R = target)
  ∧ ((target < φ)%R →
     ∃ e, limitPackingFraction new_SystHalt plugin target s = (Throws e, s)).
Proof.
  intros Hφ Hpos Hγ γ τ.
  unfold limitPackingFraction, mbind, M_bind, get. rewrite Hφ. split.
  - intros Hle. destruct (Rlt_dec target φ) as [Hlt|_]; [lra|].
    split; [reflexivity|].
    assert (0 < target / φ)%R as Hratio
      by (apply Rdiv_lt_0_compat; lra).
    replace (1 + γ * τ)%R with (pow (target / φ) (1 / 3))
      by (unfold τ, γ; field; lra).
    rewrite (pow_third_cubed _ Hratio). field. lra.
  - intros Hlt. destruct (Rlt_dec target φ) as [_|Hge]; [|lra].
    eexists. reflexivity.
Qed.

End PluginFacts.

(** One sphere of volume 1 in a box of side 10, to be compressed at rate
    1/100 to eight times its packing fraction. *)
Lemma limitPackingFraction_halt_time_witness :
  let s := demo_box INITIALISED BCNone demo_units 10 1 1 in
  let φ := ((0 + 1) / (1 * 10 * 10 * 10))%R in
  ∃ s',
    @limitPackingFraction demo_components (λ _ _, tt) (mkIPCompression (1 / 100)) (8 * φ) s
    = (Returns tt, s')
    ∧ systems s' = [tt].
Proof.
  destruct (@limitPackingFraction_halt_time demo_components (λ _ _, tt)
              (mkIPCompression (1 / 100))
              (demo_box INITIALISED BCNone demo_units 10 1 1)
              ((0 + 1) / (1 * 10 * 10 * 10))%R
              (8 * ((0 + 1) / (1 * 10 * 10 * 10)))%R)
    as [Hgrow _].
  - reflexivity.
  - lra.
  - simpl. lra.
  - destruct Hgrow as [Hrun _]; [lra|].
    eexists. split; [exact Hrun | reflexivity].
Defined.

(** *** Limiting the density *)

(** Modelled from the spec: the volume unit derives from the length
    unit. *)
Definition unitVolume (u : Units) : R :=
  (unitLength u * unitLength u * unitLength u)%R.

Section Density.
Context `{Components}.
Variable new_SystHalt : R → string → System.

(** [IPCompression::limitDensity]; [Sim->N] is the number of
    particles. *)
Definition limitDensity (plugin : IPCompression) (targetrho : R) : M unit :=
  s ← get;
  match getPackingFraction s with
  | Throws e => λ s, (Throws e, s)
  | Returns packfrac =>
      let molVol :=
        (packfrac * getSimVolume s
         / (IZR (Z.of_N (N_particles s)) * unitVolume (units s)))%R in
      limitPackingFraction new_SystHalt plugin (molVol * targetrho)
  end.

(** X13. [limitDensity] hands [limitPackingFraction] the packing
    fraction it computes for the target density, the current packing
    fraction times the volume of the box over the number of particles
    and the volume unit, times the target. Whenever it returns, the
    halt event it has added is at [((target / ρ)^(1/3) - 1) / γ], [ρ]
    being the number of particles times the volume unit over the volume
    of the box: the time depends on the number density alone, not on
    the packing fraction. Otherwise it throws "Target packing fraction
    is lower than current!". Nothing else changes either way. *)
Theorem limitDensity_halt_time
    (plugin : IPCompression) (s : Simulation) (φ target : R) :
  getPackingFraction s = Returns φ →
  (0 < φ)%R →
  (0 < getSimVolume s)%R →
  (0 < IZR (Z.of_N (N_particles s)))%R →
  (0 < unitLength (units s))%R →
  let ρ :=
    (IZR (Z.of_N (N_particles s)) * unitVolume (units s) / getSimVolume s)%R in
  let τ := ((pow (target / ρ) (1 / 3) - 1) / growthRate plugin)%R in
  limitDensity plugin target s
  = limitPackingFraction new_SystHalt plugin
      (φ * getSimVolume s
       / (IZR (Z.of_N (N_particles s)) * unitVolume (units s)) * target) s
  ∧ match limitDensity plugin target s with
    | (Returns _, s') =>
        s' = set_systems (systems s ++ [new_SystHalt τ "CompresionLimiter"]) s
    | (Throws e, s') =>
        e = M_throw [Str "Target packing fraction is lower than current!"]
        ∧ s' = s
    end.
Proof.
  intros Hφ Hpos HV HN Hu ρ τ.
  assert (0 < unitVolume (units s))%R as HuV.
  { unfold unitVolume. repeat apply Rmult_lt_0_compat; done. }
  set (n := IZR (Z.of_N (N_particles s))) in *.
  set (V := getSimVolume s) in *. set (uV := unitVolume (units s)) in *.
  assert (φ * V / (n * uV) * target / φ = target / ρ)%R as Hratio
    by (unfold ρ; field; lra).
  assert (limitDensity plugin target s
          = limitPackingFraction new_SystHalt plugin
              (φ * V / (n * uV) * target) s) as Hcall.
  { unfold limitDensity, mbind, M_bind, get. by rewrite Hφ. }
  split; [done|]. rewrite Hcall.
  unfold limitPackingFraction, mbind, M_bind, get. rewrite Hφ.
  destruct (Rlt_dec (φ * V / (n * uV) * target) φ) as [Hlt|Hge].
  - done.
  - unfold modify, τ. by rewrite Hratio.
Qed.

End Density.

(** One sphere in a box of side 10, limited to eight times its
    density: the halt is added. *)
Lemma limitDensity_halt_time_witness :
  let s := demo_box INITIALISED BCNone demo_units 10 1 1 in
  ∃ s',
    @limitDensity demo_components (λ _ _, tt) (mkIPCompression (1 / 100))
      (8 / 1000) s = (Returns tt, s')
    ∧ systems s' = [tt].
Proof.
  cbv zeta.
  destruct (@limitDensity_halt_time demo_components (λ _ _, tt)
              (mkIPCompression (1 / 100))
              (demo_box INITIALISED BCNone demo_units 10 1 1)
              ((0 + 1) / (1 * 10 * 10 * 10))%R (8 / 1000)%R)
    as [Hcall Hhalt].
  - reflexivity.
  - lra.
  - unfold getSimVolume. simpl. lra.
  - simpl. lra.
  - simpl. lra.
  - cbv zeta in Hcall. rewrite Hcall. clear Hcall Hhalt.
    unfold limitPackingFraction, mbind, M_bind, get, throw, modify in *.
    change (getPackingFraction (demo_box INITIALISED BCNone demo_units 10 1 1))
      with (Returns (A := R) ((0 + 1) / (1 * 10 * 10 * 10))%R) in *.
    cbv beta iota in *.
    destruct (Rlt_dec _ _) as [Hlt|_].
    + exfalso. unfold getSimVolume, unitVolume in Hlt. simpl in Hlt. lra.
    + eexists. split; [reflexivity|]. reflexivity.
Defined.

End Compression.

(** ** The parabola sentinel ([GParabolaSentinel]) *)

Module ParabolaSentinel.

(** The scheduler and the remaining members of the simulation data
    (boundary conditions, systems, the state of the Liouvillean) are
    classes outside this unit. *)
Class Engine : Type := {
  Scheduler : Type;
  Rest : Type
}.

Record SimData `{Engine} : Type := mkSimData {
  dSysTime : R;
  freestreamAcc : R;
  particleList : list Particle;
  ptrScheduler : Scheduler;
  rest : Rest
}.
Arguments mkSimData {_}.

(** The calls the sentinel makes, each on the simulation data; a
    particle is passed by its ID. *)
Class Collaborators `{Engine} : Type := {
  (** [Sim->liouvillean->updateParticle(part)]: streams the particle to
      the current time. *)
  Liouvillean_updateParticle : N → SimData → SimData;
  Liouvillean_getParabolaSentinelTime : N → SimData → dtime;
  Liouvillean_enforceParabola : N → SimData → SimData;
  (** [Sim->ptrScheduler->fullUpdate(part)] *)
  Scheduler_fullUpdate : N → SimData → SimData;
  (** [Sim->ptrScheduler->stream(dt)] *)
  Scheduler_stream : R → Scheduler → Scheduler;
  (** [Sim->stream(dt)] *)
  Sim_stream : R → SimData → SimData;
  (** The time the scheduler's event list has been streamed by. *)
  Scheduler_streamed : Scheduler → R
}.

(** [GlobalEvent]: the particle, the time to the event and its type. *)
Record GlobalEvent : Type := mkGlobalEvent {
  ge_particle : N;
  getdt : dtime;
  ge_type : EEventType
}.

Section Sentinel.
Context `{Engine} `{!Collaborators}.

(** [GParabolaSentinel::getEvent]. *)
Definition getEvent (part : N) (Sim : SimData) : GlobalEvent * SimData :=
  let Sim := Liouvillean_updateParticle part Sim in
  (mkGlobalEvent part (Liouvillean_getParabolaSentinelTime part Sim)
     VIRTUAL_PARABOLA,
   Sim).

(** [GParabolaSentinel::runEvent] (without [DYNAMO_DEBUG]); its
    [double] argument has no name and no use. *)
Definition runEvent (part : N) (_ : R) (Sim : SimData) : SimData :=
  let Sim := Liouvillean_updateParticle part Sim in
  let '(iEvent, Sim) := getEvent part Sim in
  match getdt iEvent with
  | HUGE_VAL =>
      (* numerically drifted slightly past the parabola: only reschedule *)
      Scheduler_fullUpdate part Sim
  | Finite dt =>
      let Sim :=
        mkSimData (dSysTime Sim + dt) (freestreamAcc Sim) (particleList Sim)
          (ptrScheduler Sim) (rest Sim) in
      let Sim :=
        mkSimData (dSysTime Sim) (freestreamAcc Sim) (particleList Sim)
          (Scheduler_stream dt (ptrScheduler Sim)) (rest Sim) in
      let Sim := Sim_stream dt Sim in
      let Sim := Liouvillean_enforceParabola part Sim in
      let Sim :=
        mkSimData (dSysTime Sim) (freestreamAcc Sim + dt) (particleList Sim)
          (ptrScheduler Sim) (rest Sim) in
      Scheduler_fullUpdate part Sim
  end.

(** The particle with the given ID, as the particle list holds it. *)
Definition particle (part : N) (Sim : SimData) : option Particle :=
  particleList Sim !! N.to_nat part.

(** [Sim'] has the clock, the free-stream accumulator and the stream
    state of the scheduler of [Sim]. *)
Definition same_clocks (Sim Sim' : SimData) : Prop :=
  dSysTime Sim' = dSysTime Sim
  ∧ freestreamAcc Sim' = freestreamAcc Sim
  ∧ Scheduler_streamed (ptrScheduler Sim')
    = Scheduler_streamed (ptrScheduler Sim).

(** The state once [runEvent] and the [getEvent] it calls have each
    streamed the particle to the current time. *)
Definition streamed (part : N) (Sim : SimData) : SimData :=
  Liouvillean_updateParticle part (Liouvillean_updateParticle part Sim).

End Sentinel.

(** A free particle under a scheduler that records, next to the time it
    has been streamed by, the particles whose events it has rebuilt. *)
Definition demo_engine : Engine :=
  {| Scheduler := R * list N; Rest := unit |}.

Section DemoEngine.
#[local] Existing Instance demo_engine.

Definition demo_collaborators (sentinel_time : dtime) : Collaborators :=
  {| Liouvillean_updateParticle := λ _ Sim, Sim;
     Liouvillean_getParabolaSentinelTime := λ _ _, sentinel_time;
     Liouvillean_enforceParabola := λ _ Sim, Sim;
     Scheduler_fullUpdate := λ part Sim,
       mkSimData (dSysTime Sim) (freestreamAcc Sim) (particleList Sim)
         ((ptrScheduler Sim).1, part :: (ptrScheduler Sim).2) (rest Sim);
     Scheduler_stream := λ dt sched, ((sched.1 + dt)%R, sched.2);
     Sim_stream := λ _ Sim, Sim;
     Scheduler_streamed := λ sched, sched.1 |}.

Definition demo_sim : SimData :=
  mkSimData 5 0 [mkParticle 0 (mkVector 0 0 1) (mkVector 1 0 0)] (0%R, []) tt.

(** [demo_sim] once the events of particle 0 have been rebuilt. *)
Definition demo_sim_rebuilt : SimData :=
  mkSimData 5 0 [mkParticle 0 (mkVector 0 0 1) (mkVector 1 0 0)]
    (0%R, [0%N]) tt.

End DemoEngine.

Section SentinelFacts.
Context `{Engine} `{!Collaborators}.

(** What the claim takes for granted of the classes outside this unit:
    streaming a particle and a full scheduler update leave the clocks
    alone, and a full update does not move a particle that has been
    streamed to the current time. *)
Hypothesis updateParticle_clocks :
  ∀ part Sim, same_clocks Sim (Liouvillean_updateParticle part Sim).
Hypothesis fullUpdate_clocks :
  ∀ part Sim, same_clocks Sim (Scheduler_fullUpdate part Sim).
Hypothesis fullUpdate_streamed_particle :
  ∀ part Sim,
    particle part (Scheduler_fullUpdate part (streamed part Sim))
    = particle part (streamed part Sim).

Lemma same_clocks_trans (Sim1 Sim2 Sim3 : SimData) :
  same_clocks Sim1 Sim2 → same_clocks Sim2 Sim3 → same_clocks Sim1 Sim3.
Proof.
  unfold same_clocks. intros (-> & -> & ->) (-> & -> & ->). done.
Qed.

(** C10. When the recomputed sentinel event of [part] has the time
    [HUGE_VAL], [runEvent] does a full scheduler update of the streamed
    particle and nothing else: the simulation clock, the free-stream
    accumulator and the stream state of the scheduler are what they
    were, and the particle is as streaming it to the current time left
    it. *)
Theorem runEvent_HUGE_VAL_only_fullUpdate (part : N) (dt : R) (Sim : SimData) :
  Liouvillean_getParabolaSentinelTime part (streamed part Sim) = HUGE_VAL →
  runEvent part dt Sim = Scheduler_fullUpdate part (streamed part Sim)
  ∧ same_clocks Sim (runEvent part dt Sim)
  ∧ particle part (runEvent part dt Sim) = particle part (streamed part Sim).
Proof.
  intros Htime.
  assert (runEvent part dt Sim = Scheduler_fullUpdate part (streamed part Sim))
    as Hrun.
  { unfold runEvent, getEvent. simpl. fold (streamed part Sim).
    by rewrite Htime. }
  rewrite Hrun. split; [done|]. split.
  - eapply same_clocks_trans; [|apply fullUpdate_clocks].
    eapply same_clocks_trans; apply updateParticle_clocks.
  - apply fullUpdate_streamed_particle.
Qed.


End SentinelFacts.

Lemma runEvent_HUGE_VAL_only_fullUpdate_witness :
  @runEvent demo_engine (demo_collaborators HUGE_VAL) 0 1 demo_sim
  = demo_sim_rebuilt.
Proof.
  refine (proj1 (@runEvent_HUGE_VAL_only_fullUpdate demo_engine
                   (demo_collaborators HUGE_VAL) _ _ _ 0%N 1%R demo_sim _)).
  - intros part Sim. by repeat split.
  - intros part Sim. by repeat split.
  - intros part Sim. reflexivity.
  - reflexivity.
Defined.

Section SentinelClocks.
Context `{Engine} `{!Collaborators}.

(** What the classes outside this unit are taken to do: none of the
    calls the sentinel makes on the Liouvillean, the simulation or the
    scheduler's event lists touches the clocks, and streaming the
    scheduler by [dt] adds [dt] to the time it has been streamed by. *)
Hypothesis updateParticle_clocks :
  ∀ part Sim, same_clocks Sim (Liouvillean_updateParticle part Sim).
Hypothesis fullUpdate_clocks :
  ∀ part Sim, same_clocks Sim (Scheduler_fullUpdate part Sim).
Hypothesis enforceParabola_clocks :
  ∀ part Sim, same_clocks Sim (Liouvillean_enforceParabola part Sim).
Hypothesis stream_clocks :
  ∀ dt Sim, same_clocks Sim (Sim_stream dt Sim).
Hypothesis Scheduler_stream_streamed :
  ∀ dt sched,
    Scheduler_streamed (Scheduler_stream dt sched)
    = (Scheduler_streamed sched + dt)%R.


End SentinelClocks.


End ParabolaSentinel.

(** ** The dumbbell interaction ([IDumbbells]) *)

Module Dumbbells.

(** [x += dt] on [double]s that may be infinite. *)
Definition dtime_plus (x dt : dtime) : dtime :=
  match x, dt with
  | Finite x, Finite dt => Finite (x + dt)
  | _, _ => HUGE_VAL
  end.

(** The simulation data the handler touches itself, and the rest of it
    (particles, scheduler, output plugins), which only the classes
    outside this unit touch. *)
Class Engine : Type := {
  World : Type;
  PairEventData : Type
}.

Record SimData `{Engine} : Type := mkSimData {
  eventCount : N;
  freestreamAcc : dtime;
  world : World
}.
Arguments mkSimData {_}.

(** [IDumbbells] with the capture map it inherits from
    [ISingleCapture]. *)
Record IDumbbells : Type := mkIDumbbells {
  dlength : R;
  e : R;
  r : R;
  captureMap : gset (N * N)
}.

(** Modelled from the spec: the capture map of [ISingleCapture] is a
    symmetric set of pairs, so a pair is kept under the key that has
    the smaller ID first. *)
Definition cMapKey (p1 p2 : Particle) : N * N :=
  (N.min (getID p1) (getID p2), N.max (getID p1) (getID p2)).

(** Modelled from the spec: [ISingleCapture::addToCaptureMap],
    [removeFromCaptureMap] and [isCaptured]. *)
Definition addToCaptureMap (this : IDumbbells) (p1 p2 : Particle)
  : IDumbbells :=
  mkIDumbbells (dlength this) (e this) (r this)
    (captureMap this ∪ {[cMapKey p1 p2]}).

Definition removeFromCaptureMap (this : IDumbbells) (p1 p2 : Particle)
  : IDumbbells :=
  mkIDumbbells (dlength this) (e this) (r this)
    (captureMap this ∖ {[cMapKey p1 p2]}).

Definition isCaptured (this : IDumbbells) (p1 p2 : Particle) : bool :=
  bool_decide (cMapKey p1 p2 ∈ captureMap this).

(** The calls the handler makes on the simulation data. The scheduler
    reads the interaction when it rebuilds the events of the pair. *)
Class Collaborators `{Engine} : Type := {
  Liouvillean_runOffCenterSphereOffCenterSphereCollision :
    Sim.IntEvent → R → R → SimData → PairEventData * SimData;
  signalParticleUpdate : PairEventData → SimData → SimData;
  Scheduler_fullUpdate : IDumbbells → Particle → Particle → SimData → SimData;
  (** [Ptr->eventUpdate(iEvent, retval)] for every output plugin *)
  OutputPlugins_eventUpdate : Sim.IntEvent → PairEventData → SimData → SimData
}.

Section Handler.
Context `{Engine} `{!Collaborators}.

(** [Sim->freestreamAcc += iEvent.getdt()]. *)
Definition add_freestream (iEvent : Sim.IntEvent) (Sim : SimData) : SimData :=
  mkSimData (eventCount Sim)
    (dtime_plus (freestreamAcc Sim) (Sim.ev_dt iEvent)) (world Sim).

(** [IDumbbells::runEvent]. The method is [const] and the capture map
    [mutable]: the interaction is returned with the simulation data. *)
Definition runEvent (this : IDumbbells) (p1 p2 : Particle)
    (iEvent : Sim.IntEvent) (Sim : SimData) : outcome (IDumbbells * SimData) :=
  match Sim.ev_type iEvent with
  | CORE =>
      let Sim :=
        mkSimData (Sim.wrap64 (eventCount Sim + 1)) (freestreamAcc Sim)
          (world Sim) in
      let '(retval, Sim) :=
        Liouvillean_runOffCenterSphereOffCenterSphereCollision
          iEvent (e this) (dlength this) Sim in
      let Sim := signalParticleUpdate retval Sim in
      let Sim := Scheduler_fullUpdate this p1 p2 Sim in
      let Sim := OutputPlugins_eventUpdate iEvent retval Sim in
      Returns (this, Sim)
  | WELL_IN =>
      let this := addToCaptureMap this p1 p2 in
      let Sim := Scheduler_fullUpdate this p1 p2 Sim in
      let Sim := add_freestream iEvent Sim in
      Returns (this, Sim)
  | WELL_OUT =>
      let this := removeFromCaptureMap this p1 p2 in
      let Sim := Scheduler_fullUpdate this p1 p2 Sim in
      let Sim := add_freestream iEvent Sim in
      Returns (this, Sim)
  | _ => Throws (M_throw [Str "Unknown collision type"])
  end.

(** The key of a pair does not depend on the order of the two. *)
Lemma cMapKey_sym (p1 p2 : Particle) : cMapKey p1 p2 = cMapKey p2 p1.
Proof. unfold cMapKey. by rewrite N.min_comm, N.max_comm. Qed.

Lemma isCaptured_addToCaptureMap (this : IDumbbells) (p1 p2 : Particle) :
  isCaptured (addToCaptureMap this p1 p2) p1 p2 = true
  ∧ isCaptured (addToCaptureMap this p1 p2) p2 p1 = true.
Proof.
  unfold isCaptured, addToCaptureMap. simpl.
  rewrite (cMapKey_sym p2 p1).
  split; apply bool_decide_eq_true; set_solver.
Qed.

Lemma isCaptured_removeFromCaptureMap (this : IDumbbells) (p1 p2 : Particle) :
  isCaptured (removeFromCaptureMap this p1 p2) p1 p2 = false
  ∧ isCaptured (removeFromCaptureMap this p1 p2) p2 p1 = false.
Proof.
  unfold isCaptured, removeFromCaptureMap. simpl.
  rewrite (cMapKey_sym p2 p1).
  split; apply bool_decide_eq_false;
    intros [_ Hout]%elem_of_difference; apply Hout; by apply elem_of_singleton.
Qed.

(** C2. [runEvent] changes the capture map at [WELL_IN] events, where
    the pair is inserted, and at [WELL_OUT] events, where it is
    removed, and nowhere else: a [CORE] event returns the interaction as
    it was, and every other event type throws, with nothing changed. *)
Theorem runEvent_captureMap (this : IDumbbells) (p1 p2 : Particle)
    (iEvent : Sim.IntEvent) (Sim : SimData) :
  match Sim.ev_type iEvent with
  | CORE =>
      ∃ Sim', runEvent this p1 p2 iEvent Sim = Returns (this, Sim')
  | WELL_IN =>
      ∃ this' Sim',
        runEvent this p1 p2 iEvent Sim = Returns (this', Sim')
        ∧ captureMap this' = captureMap this ∪ {[cMapKey p1 p2]}
        ∧ isCaptured this' p1 p2 = true
  | WELL_OUT =>
      ∃ this' Sim',
        runEvent this p1 p2 iEvent Sim = Returns (this', Sim')
        ∧ captureMap this' = captureMap this ∖ {[cMapKey p1 p2]}
        ∧ isCaptured this' p1 p2 = false
  | _ => threw (runEvent this p1 p2 iEvent Sim)
  end.
Proof.
  unfold runEvent.
  destruct (Sim.ev_type iEvent); try (eexists; reflexivity).
  - destruct (Liouvillean_runOffCenterSphereOffCenterSphereCollision _ _ _ _)
      as [retval Sim1].
    by eexists.
  - eexists _, _. split; [reflexivity|]. split; [reflexivity|].
    apply isCaptured_addToCaptureMap.
  - eexists _, _. split; [reflexivity|]. split; [reflexivity|].
    apply isCaptured_removeFromCaptureMap.
Qed.

End Handler.

(** *** Event detection, ranges and lengths *)

(** [IDumbbells::maxIntDist], [hardCoreDiam] and [rescaleLengths]. *)
Definition maxIntDist (this : IDumbbells) : R :=
  (dlength this + 2.0 * r this)%R.

Definition hardCoreDiam (this : IDumbbells) : R :=
  (2.0 * 4.0 / 3.0 * PI * r this * r this * r this)%R.

Definition rescaleLengths (scale : R) (this : IDumbbells) : IDumbbells :=
  mkIDumbbells (dlength this + scale * dlength this) (e this)
    (r this + scale * r this) (captureMap this).

(** The root finders of the Liouvillean, each of which reports whether
    it found an event and leaves its time in the collision data, and the
    [DYNAMIC] bit of a particle. *)
Class Liouvillean `{Engine} : Type := {
  CPDData : Type;
  (** the constructor of [CPDData] for a pair of particles *)
  new_CPDData : SimData → Particle → Particle → CPDData;
  colldat_dt : CPDData → dtime;
  SphereSphereInRoot : CPDData → R → bool → bool → bool * CPDData;
  SphereSphereOutRoot : CPDData → R → bool → bool → bool * CPDData;
  getOffCenterSphereOffCenterSphereCollision :
    CPDData → R → Particle → Particle → bool * CPDData;
  testState_DYNAMIC : Particle → bool
}.

Section Detection.
Context `{Engine} `{!Collaborators} `{!Liouvillean}.
(** [Sim->dynamics.BCs().applyBC(rij)] *)
Variable applyBC : SimData → Vector → Vector.

(** [IDumbbells::getEvent] (without [DYNAMO_DEBUG]). *)
Definition getEvent (this : IDumbbells) (p1 p2 : Particle) (Sim : SimData)
  : Sim.IntEvent :=
  let colldat := new_CPDData Sim p1 p2 in
  if isCaptured this p1 p2 then
    let '(_, colldat) :=
      SphereSphereOutRoot colldat
        (dlength this * dlength this + 4.0 * r this * r this)
        (testState_DYNAMIC p1) (testState_DYNAMIC p2) in
    let '(found, colldat) :=
      getOffCenterSphereOffCenterSphereCollision colldat
        (dlength this + 2.0 * r this) p1 p2 in
    if found
    then Sim.mkIntEvent (getID p1) (getID p2) (colldat_dt colldat) CORE
    else Sim.mkIntEvent (getID p1) (getID p2) (colldat_dt colldat) WELL_OUT
  else
    let '(found, colldat) :=
      SphereSphereInRoot colldat
        (dlength this * dlength this + 4.0 * r this * r this)
        (testState_DYNAMIC p1) (testState_DYNAMIC p2) in
    if found
    then Sim.mkIntEvent (getID p1) (getID p2) (colldat_dt colldat) WELL_IN
    else Sim.mkIntEvent (getID p1) (getID p2) HUGE_VAL NONE.

(** [IDumbbells::captureTest]. *)
Definition captureTest (this : IDumbbells) (p1 p2 : Particle) (Sim : SimData)
  : bool :=
  let rij := Sim.vsub (getPosition p1) (getPosition p2) in
  let rij := applyBC Sim rij in
  if Rle_dec (vdot rij rij)
       (dlength this * dlength this + 4.0 * r this * r this)
  then true else false.

(** X14. The events [getEvent] computes and the capture map go
    together. For a captured pair the event is a [CORE] or a [WELL_OUT]
    event, [runEvent] executes it, and the pair is still captured after
    a [CORE] and released after a [WELL_OUT]. For a pair that is not
    captured the event is a [WELL_IN], which [runEvent] executes and
    which captures the pair, or it is [NONE] at [HUGE_VAL], which
    [runEvent] refuses. *)
Theorem getEvent_runEvent_capture (this : IDumbbells) (p1 p2 : Particle)
    (Sim Sim2 : SimData) :
  let iEvent := getEvent this p1 p2 Sim in
  Sim.ev_p1 iEvent = getID p1 ∧ Sim.ev_p2 iEvent = getID p2
  ∧ if isCaptured this p1 p2 then
      (Sim.ev_type iEvent = CORE
       ∧ ∃ Sim',
           runEvent this p1 p2 iEvent Sim2 = Returns (this, Sim'))
      ∨ (Sim.ev_type iEvent = WELL_OUT
         ∧ ∃ this' Sim',
             runEvent this p1 p2 iEvent Sim2 = Returns (this', Sim')
             ∧ isCaptured this' p1 p2 = false)
    else
      (Sim.ev_type iEvent = WELL_IN
       ∧ ∃ this' Sim',
           runEvent this p1 p2 iEvent Sim2 = Returns (this', Sim')
           ∧ isCaptured this' p1 p2 = true)
      ∨ (Sim.ev_type iEvent = NONE
         ∧ Sim.ev_dt iEvent = HUGE_VAL
         ∧ runEvent this p1 p2 iEvent Sim2
           = Throws (M_throw [Str "Unknown collision type"])).
Proof.
  intros iEvent. unfold iEvent, getEvent.
  destruct (isCaptured this p1 p2) eqn:Hcaptured.
  - destruct (SphereSphereOutRoot _ _ _ _) as [out colldat1].
    destruct (getOffCenterSphereOffCenterSphereCollision _ _ _ _)
      as [[] colldat2]; (split; [done|]); (split; [done|]).
    + left. split; [done|]. unfold runEvent. simpl.
      destruct (Liouvillean_runOffCenterSphereOffCenterSphereCollision _ _ _ _).
      by eexists.
    + right. split; [done|]. eexists _, _. split; [reflexivity|].
      apply isCaptured_removeFromCaptureMap.
  - destruct (SphereSphereInRoot _ _ _ _) as [[] colldat1];
      (split; [done|]); (split; [done|]).
    + left. split; [done|]. eexists _, _. split; [reflexivity|].
      apply isCaptured_addToCaptureMap.
    + right. by split_and!.
Qed.

(** X15. For a dumbbell of non-negative length and radius, every pair
    that passes [captureTest] is no further apart than [maxIntDist]: the
    squared separation is at most [maxIntDist] squared, so the
    neighbourhood the cells are sized for holds every captured pair. *)
Theorem captureTest_within_maxIntDist (this : IDumbbells) (p1 p2 : Particle)
    (Sim : SimData) :
  (0 <= dlength this)%R → (0 <= r this)%R →
  captureTest this p1 p2 Sim = true →
  let rij := applyBC Sim (Sim.vsub (getPosition p1) (getPosition p2)) in
  (vdot rij rij <= maxIntDist this * maxIntDist this)%R.
Proof.
  intros Hl Hr Htest rij. unfold captureTest in Htest. fold rij in Htest.
  destruct (Rle_dec _ _) as [Hle|]; [|done].
  unfold maxIntDist. nra.
Qed.

(** X16. [rescaleLengths scale] multiplies the range [maxIntDist] by
    [1 + scale] and [hardCoreDiam] by the cube of [1 + scale]; the elasticity and the capture map stay
    as they are, so the pairs that were captured remain so. *)
Theorem rescaleLengths_scales (scale : R) (this : IDumbbells) (p1 p2 : Particle) :
  maxIntDist (rescaleLengths scale this) = ((1 + scale) * maxIntDist this)%R
  ∧ hardCoreDiam (rescaleLengths scale this)
    = ((1 + scale) * (1 + scale) * (1 + scale) * hardCoreDiam this)%R
  ∧ e (rescaleLengths scale this) = e this
  ∧ isCaptured (rescaleLengths scale this) p1 p2 = isCaptured this p1 p2.
Proof.
  unfold maxIntDist, hardCoreDiam, rescaleLengths. simpl.
  split_and!; try done; lra.
Qed.

End Detection.

(** A pair of dumbbell sites one unit apart in an engine without
    boundary conditions. *)
Definition demo_engine : Engine := {| World := unit; PairEventData := unit |}.

Definition demo_dumbbells : IDumbbells := mkIDumbbells 1 1 1 ∅.

Definition demo_site (ID : N) (x : R) : Particle :=
  mkParticle ID (mkVector x 0 0) (mkVector 0 0 0).

Lemma captureTest_within_maxIntDist_witness :
  let applyBC := λ (_ : @SimData demo_engine) (rij : Vector), rij in
  let Sim := @mkSimData demo_engine 0 (Finite 0) tt in
  let rij :=
    applyBC Sim
      (Sim.vsub (getPosition (demo_site 0 0)) (getPosition (demo_site 1 1))) in
  (vdot rij rij <= maxIntDist demo_dumbbells * maxIntDist demo_dumbbells)%R.
Proof.
  apply (@captureTest_within_maxIntDist demo_engine (λ _ rij, rij)
           demo_dumbbells (demo_site 0 0) (demo_site 1 1)
           (@mkSimData demo_engine 0 (Finite 0) tt)).
  - simpl. lra.
  - simpl. lra.
  - unfold captureTest. destruct (Rle_dec _ _) as [|Hgt]; [done|].
    exfalso. apply Hgt. unfold vdot. simpl. lra.
Defined.

End Dumbbells.

(** ** The cell lists ([CGCells]) *)

Module Cells.

Record partCEntry : Type := mkPartCEntry {
  prev : Z;
  next : Z;
  cell : Z
}.

Record cellStruct : Type := mkCellStruct {
  neighbours : list N;
  locals : list N;
  list_ : Z;  (** [int list], the head of the chain or [-1] *)
  origin : Vector;
  coords : Z * Z * Z;
  posCells : list N;
  negCells : list N
}.

(** The two [mutable] vectors of [CGCells]. *)
Record CGCells : Type := mkCGCells {
  cells : list cellStruct;
  partCellData : list partCEntry
}.

(** Assignments to single fields. *)
Definition set_prev (x : Z) (entry : partCEntry) : partCEntry :=
  mkPartCEntry x (next entry) (cell entry).
Definition set_next (x : Z) (entry : partCEntry) : partCEntry :=
  mkPartCEntry (prev entry) x (cell entry).
Definition set_cell (x : Z) (entry : partCEntry) : partCEntry :=
  mkPartCEntry (prev entry) (next entry) x.
Definition set_list (x : Z) (c : cellStruct) : cellStruct :=
  mkCellStruct (neighbours c) (locals c) x (origin c) (coords c)
    (posCells c) (negCells c).

(** [v[i]] with an [int] index: reading or writing outside the vector
    is undefined in C++ and [None] here. *)
Definition vget {A} (v : list A) (i : Z) : option A :=
  if decide (0 ≤ i)%Z then v !! Z.to_nat i else None.

(** [v[i].field = x], as the update [f] of element [i]. *)
Definition vupdate {A} (f : A → A) (v : list A) (i : Z) : option (list A) :=
  a ← vget v i; Some (<[Z.to_nat i := f a]> v).

(** [CGCells::addToCell] (without [DYNAMO_DEBUG]). *)
Definition addToCell (ID cellID : Z) (this : CGCells) : option CGCells :=
  c ← vget (cells this) cellID;
  pcd ←
    (if decide (list_ c ≠ -1)%Z
     then vupdate (set_prev ID) (partCellData this) (list_ c)
     else Some (partCellData this));
  pcd ← vupdate (set_next (list_ c)) pcd ID;
  cs ← vupdate (set_list ID) (cells this) cellID;
  pcd ← vupdate (set_prev (-1)) pcd ID;
  pcd ← vupdate (set_cell cellID) pcd ID;
  Some (mkCGCells cs pcd).

(** [CGCells::removeFromCell] (without [DYNAMO_DEBUG]). *)
Definition removeFromCell (ID : Z) (this : CGCells) : option CGCells :=
  entry ← vget (partCellData this) ID;
  this ←
    (if decide (prev entry ≠ -1)%Z
     then
       pcd ← vupdate (set_next (next entry)) (partCellData this) (prev entry);
       Some (mkCGCells (cells this) pcd)
     else
       cs ← vupdate (set_list (next entry)) (cells this) (cell entry);
       Some (mkCGCells cs (partCellData this)));
  entry ← vget (partCellData this) ID;
  if decide (next entry ≠ -1)%Z
  then
    pcd ← vupdate (set_prev (prev entry)) (partCellData this) (next entry);
    Some (mkCGCells (cells this) pcd)
  else Some this.

(** *** Well-formed cell lists *)

(** Starting at [head] and following [next], the chain of cell [c]
    visits exactly the particles [l], in order, and ends at [-1]; every
    visited entry names [c] as its cell and the particle visited before
    it ([before], [-1] for the first) as its [prev]. *)
Fixpoint chain (pcd : list partCEntry) (c before : Z) (l : list Z) (head : Z)
  : Prop :=
  match l with
  | [] => head = (-1)%Z
  | ID :: l' =>
      head = ID
      ∧ ∃ entry,
          vget pcd ID = Some entry
          ∧ prev entry = before
          ∧ cell entry = c
          ∧ chain pcd c ID l' (next entry)
  end.

(** [residents] lists the particles of every cell in chain order: each
    cell's list is a well-formed chain, and no particle is met twice, in
    one chain (no cycle) or in two. *)
Definition well_formed (this : CGCells) (residents : list (list Z)) : Prop :=
  length residents = length (cells this)
  ∧ (∀ c cs l,
       vget (cells this) c = Some cs →
       vget residents c = Some l →
       chain (partCellData this) c (-1) l (list_ cs))
  ∧ NoDup (concat residents).

(** Every particle is in a cell. *)
Definition all_resident (this : CGCells) (residents : list (list Z)) : Prop :=
  ∀ ID entry, vget (partCellData this) ID = Some entry → ID ∈ concat residents.

(** [l] without the particle [ID]. *)
Definition without (ID : Z) (l : list Z) : list Z :=
  filter (λ x, x ≠ ID) l.

(** The residents after [ID] has been moved to the front of cell [c]. *)
Definition moved (ID c : Z) (residents : list (list Z)) : list (list Z) :=
  let removed := without ID <$> residents in
  match vget removed c with
  | Some l => <[Z.to_nat c := ID :: l]> removed
  | None => removed
  end.

(** [pcd'] is [pcd] with the neighbours of [ID] linked to each other:
    what the two assignments of [removeFromCell] to [partCellData] come
    to. An index outside the vector has no entry on either side. *)
Definition unlinked (pcd pcd' : list partCEntry) (ID : Z) (entry : partCEntry)
  : Prop :=
  ∀ x, x ≠ ID →
    vget pcd' x =
      if decide (x = prev entry) then set_next (next entry) <$> vget pcd x
      else if decide (x = next entry) then set_prev (prev entry) <$> vget pcd x
      else vget pcd x.

(** [pcd'] is [pcd] with [ID] linked in front of [head] in cell [c]:
    what the assignments of [addToCell] come to. *)
Definition linked_in_front (pcd pcd' : list partCEntry) (ID c head : Z) : Prop :=
  vget pcd' ID = Some (mkPartCEntry (-1) head c)
  ∧ ∀ x, x ≠ ID →
      vget pcd' x =
        if decide (x = head) then set_prev ID <$> vget pcd x else vget pcd x.

(** A state to run the operations on: two cells, the first holding the
    chain 2, 0 and the second the chain 1. *)
Definition demo_cell (head : Z) : cellStruct :=
  mkCellStruct [] [] head (mkVector 0 0 0) (0, 0, 0)%Z [] [].

Definition demo_cells : CGCells :=
  mkCGCells [demo_cell 2; demo_cell 1]
    [mkPartCEntry 2 (-1) 0; mkPartCEntry (-1) (-1) 1; mkPartCEntry (-1) 0 0].

Definition demo_residents : list (list Z) := [[2; 0]; [1]]%Z.

(** *** Vectors with [int] indices *)

Section VectorFacts.
Context {A : Type}.
Implicit Types (v : list A) (i j : Z) (f : A → A).

Lemma vget_Some_range v i a :
  vget v i = Some a → (0 ≤ i)%Z ∧ (Z.to_nat i < length v)%nat.
Proof.
  unfold vget. case_decide; [|done].
  intros Hget%lookup_lt_Some. done.
Qed.

Lemma vget_negative v i : (i < 0)%Z → vget v i = None.
Proof. intros Hi. unfold vget. case_decide; [lia | done]. Qed.

Lemma vget_of_nat v (n : nat) : vget v (Z.of_nat n) = v !! n.
Proof. unfold vget. case_decide; [by rewrite Nat2Z.id | lia]. Qed.

Lemma vget_same_length {B} v (w : list B) i :
  length v = length w → is_Some (vget v i) → is_Some (vget w i).
Proof.
  intros Hlen [a Ha]. destruct (vget_Some_range _ _ _ Ha) as [Hi Hlt].
  unfold vget. case_decide; [|done].
  apply lookup_lt_is_Some. lia.
Qed.

Lemma vupdate_Some f v i a :
  vget v i = Some a → vupdate f v i = Some (<[Z.to_nat i := f a]> v).
Proof. intros Hget. unfold vupdate. by rewrite Hget. Qed.

Lemma vget_insert_eq v i a b :
  vget v i = Some a → vget (<[Z.to_nat i := b]> v) i = Some b.
Proof.
  intros Hget. destruct (vget_Some_range _ _ _ Hget) as [Hi Hlt].
  unfold vget. case_decide; [|done]. by apply list_lookup_insert_eq.
Qed.

Lemma vget_insert_ne v i j b :
  (0 ≤ i)%Z → j ≠ i → vget (<[Z.to_nat i := b]> v) j = vget v j.
Proof.
  intros Hi Hne. unfold vget. case_decide; [|done].
  apply list_lookup_insert_ne. lia.
Qed.

End VectorFacts.

(** *** Chains *)

Lemma chain_head pcd c before l head :
  chain pcd c before l head → head = default (-1)%Z (list.head l).
Proof. destruct l; simpl; [done | by intros [-> _]]. Qed.

Lemma chain_members pcd c before l head ID :
  chain pcd c before l head → ID ∈ l →
  ∃ entry, vget pcd ID = Some entry ∧ cell entry = c.
Proof.
  revert before head. induction l as [|x l IH]; intros before head; simpl.
  - by intros _ ?%elem_of_nil.
  - intros (-> & entry & Hget & _ & Hcell & Hrest) [->|Hin]%elem_of_cons.
    + by exists entry.
    + by eapply IH.
Qed.

Lemma chain_nonneg pcd c before l head ID :
  chain pcd c before l head → ID ∈ l → (0 ≤ ID)%Z.
Proof.
  intros Hchain Hin.
  destruct (chain_members _ _ _ _ _ _ Hchain Hin) as (entry & Hget & _).
  by destruct (vget_Some_range _ _ _ Hget).
Qed.

(** A chain only depends on the entries of its own particles. *)
Lemma chain_ext pcd pcd' c before l head :
  (∀ x, x ∈ l → vget pcd' x = vget pcd x) →
  chain pcd c before l head → chain pcd' c before l head.
Proof.
  revert before head. induction l as [|x l IH]; intros before head Hsame; simpl.
  - done.
  - intros (-> & entry & Hget & Hprev & Hcell & Hrest).
    split; [done|]. exists entry. rewrite Hsame by left.
    repeat split; try done. apply IH; [|done].
    intros y Hy. apply Hsame. by right.
Qed.

(** The entry of a particle inside a chain: its [prev] is the particle
    before it, its [next] the one after it. *)
Lemma chain_mid pcd c before l1 ID l2 head entry :
  chain pcd c before (l1 ++ ID :: l2) head →
  vget pcd ID = Some entry →
  prev entry = default before (last l1)
  ∧ next entry = default (-1)%Z (list.head l2)
  ∧ cell entry = c
  ∧ chain pcd c ID l2 (next entry).
Proof.
  revert before head. induction l1 as [|x l1 IH]; intros before head; simpl.
  - intros (-> & entry' & Hget & Hprev & Hcell & Hrest) Hentry.
    assert (entry' = entry) as -> by congruence.
    repeat split; try done. by eapply chain_head.
  - intros (-> & entry' & Hget & Hprev & Hcell & Hrest) Hentry.
    destruct (IH _ _ Hrest Hentry) as (Hp & Hn & Hc & Hch).
    repeat split; try done.
    rewrite Hp, last_cons. by destruct (last l1).
Qed.

Lemma unlinked_elsewhere pcd pcd' ID entry x :
  unlinked pcd pcd' ID entry →
  x ≠ ID → x ≠ prev entry → x ≠ next entry →
  vget pcd' x = vget pcd x.
Proof.
  intros Hun Hx Hp Hn. rewrite (Hun x Hx).
  by rewrite !decide_False by done.
Qed.

(** Unlinking [ID] from the chain that holds it leaves the chain of the
    particles before and after it. *)
Lemma chain_unlink pcd pcd' c ID entry :
  vget pcd ID = Some entry →
  unlinked pcd pcd' ID entry →
  ∀ l1 l2 before head,
    chain pcd c before (l1 ++ ID :: l2) head →
    NoDup (l1 ++ ID :: l2) →
    before ∉ l1 ++ ID :: l2 →
    chain pcd' c before (l1 ++ l2)
      (match l1 with [] => next entry | _ => head end).
Proof.
  intros Hentry Hun. induction l1 as [|x l1 IH]; intros l2 before head.
  - simpl. intros (-> & entry' & Hget & Hprev & Hcell & Hrest) Hnodup Hbefore.
    assert (entry' = entry) as -> by congruence.
    apply NoDup_cons in Hnodup as [HID Hnodup].
    destruct l2 as [|y l2]; simpl in *; [done|].
    destruct Hrest as (Hy & entry_y & Hgety & Hprevy & Hcelly & Hresty).
    apply NoDup_cons in Hnodup as [Hy2 Hnodup].
    split; [done|]. exists (set_prev (prev entry) entry_y).
    assert (y ≠ ID) as HyID by (intros ->; apply HID; left).
    assert (y ≠ before) as Hyb
      by (intros ->; apply Hbefore; right; left).
    rewrite (Hun y HyID).
    rewrite decide_False by congruence.
    rewrite decide_True by done. rewrite Hgety. simpl.
    repeat split; try done.
    apply (chain_ext pcd); [|done].
    intros z Hz. apply (unlinked_elsewhere _ _ _ _ _ Hun).
    + intros ->. apply HID. by right.
    + rewrite Hprev. intros ->. apply Hbefore. by do 2 right.
    + rewrite Hy. by intros ->.
  - simpl. intros (-> & entry_x & Hgetx & Hprevx & Hcellx & Hrest) Hnodup Hbefore.
    apply NoDup_cons in Hnodup as [Hx Hnodup].
    assert (x ≠ ID) as HxID
      by (intros ->; apply Hx, elem_of_app; right; left).
    destruct (chain_mid _ _ _ _ _ _ _ _ Hrest Hentry) as (Hp & Hn & _ & _).
    specialize (IH l2 x (next entry_x) Hrest Hnodup Hx).
    split; [done|]. rewrite (Hun x HxID).
    assert (x ≠ next entry) as Hxn.
    { rewrite Hn. destruct l2 as [|y l2]; simpl.
      - pose proof (vget_Some_range _ _ _ Hgetx). lia.
      - intros ->. apply Hx, elem_of_app. right. right. left. }
    destruct l1 as [|z l1]; simpl in *.
    + (* [x] is the particle before [ID] *)
      subst x. rewrite decide_True by done. rewrite Hgetx. simpl.
      exists (set_next (next entry) entry_x). by repeat split.
    + assert (x ≠ prev entry) as Hxp.
      { assert (prev entry ∈ z :: l1) as Hin.
        { rewrite Hp. destruct (last (z :: l1)) as [w|] eqn:Hlast; simpl.
          - by apply last_Some_elem_of.
          - by apply last_None in Hlast. }
        intros Heq. apply Hx. rewrite Heq, app_comm_cons.
        apply elem_of_app. by left. }
      rewrite !decide_False by done.
      exists entry_x. destruct IH as [Hz IH]. by repeat split.
Qed.

(** The chains that do not hold [ID] hold none of its neighbours and
    stay as they are. *)
Lemma chain_unlink_other pcd pcd' c ID entry l head :
  unlinked pcd pcd' ID entry →
  ID ∉ l → prev entry ∉ l → next entry ∉ l →
  chain pcd c (-1) l head → chain pcd' c (-1) l head.
Proof.
  intros Hun HID Hp Hn. apply chain_ext.
  intros x Hx. apply (unlinked_elsewhere _ _ _ _ _ Hun); by intros ->.
Qed.

(** Linking [ID] in front of a chain that does not hold it. *)
Lemma chain_link pcd pcd' c ID l head :
  linked_in_front pcd pcd' ID c head →
  chain pcd c (-1) l head → NoDup l → ID ∉ l →
  chain pcd' c (-1) (ID :: l) ID.
Proof.
  intros [HID Hrest] Hchain Hnodup Hnotin. simpl. split; [done|].
  eexists. split; [exact HID|]. simpl. repeat split.
  destruct l as [|y l]; simpl in *; [done|].
  destruct Hchain as (-> & entry_y & Hgety & Hprevy & Hcelly & Hresty).
  apply NoDup_cons in Hnodup as [Hy Hnodup].
  split; [done|]. exists (set_prev ID entry_y).
  rewrite Hrest by (intros ->; apply Hnotin; left).
  rewrite decide_True by done. rewrite Hgety. simpl.
  repeat split; try done.
  apply (chain_ext pcd); [|done].
  intros z Hz. rewrite Hrest by (intros ->; apply Hnotin; by right).
  rewrite decide_False; [done|]. by intros ->.
Qed.

Lemma chain_link_other pcd pcd' c c' ID l head head' :
  linked_in_front pcd pcd' ID c head →
  ID ∉ l → head ∉ l →
  chain pcd c' (-1) l head' → chain pcd' c' (-1) l head'.
Proof.
  intros [_ Hrest] HID Hhead. apply chain_ext.
  intros x Hx. rewrite Hrest by (by intros ->).
  rewrite decide_False; [done|]. by intros ->.
Qed.

(** *** Residents: lists of chains *)

Lemma elem_of_concat (ll : list (list Z)) (x : Z) :
  x ∈ concat ll ↔ ∃ i l, ll !! i = Some l ∧ x ∈ l.
Proof.
  induction ll as [|l0 ll IH]; simpl.
  - split; [by intros ?%elem_of_nil | by intros (i & l & ? & _)].
  - rewrite elem_of_app, IH. split.
    + intros [Hx|(i & l & Hl & Hx)].
      * by exists 0%nat, l0.
      * by exists (S i), l.
    + intros ([|i] & l & Hl & Hx); simpl in Hl.
      * left. congruence.
      * right. by exists i, l.
Qed.

Lemma NoDup_concat_lookup (ll : list (list Z)) i l :
  NoDup (concat ll) → ll !! i = Some l → NoDup l.
Proof.
  revert i. induction ll as [|l0 ll IH]; intros i; simpl; [done|].
  intros (Hl0 & _ & Hll)%NoDup_app. destruct i as [|i]; simpl.
  - congruence.
  - by apply IH.
Qed.

Lemma NoDup_concat_unique (ll : list (list Z)) i j l l' x :
  NoDup (concat ll) →
  ll !! i = Some l → ll !! j = Some l' → x ∈ l → x ∈ l' → i = j.
Proof.
  revert i j. induction ll as [|l0 ll IH]; intros i j; simpl; [done|].
  intros (Hl0 & Hdisj & Hll)%NoDup_app.
  destruct i as [|i], j as [|j]; simpl; intros Hi Hj Hx Hx'.
  - done.
  - exfalso. apply (Hdisj x); [congruence|].
    apply elem_of_concat. by exists j, l'.
  - exfalso. apply (Hdisj x); [congruence|].
    apply elem_of_concat. by exists i, l.
  - f_equal. by eapply IH.
Qed.

Lemma concat_without (ID : Z) (ll : list (list Z)) :
  concat (without ID <$> ll) = without ID (concat ll).
Proof.
  induction ll as [|l0 ll IH]; [done|].
  rewrite fmap_cons. cbn [concat]. rewrite IH.
  unfold without. by rewrite filter_app.
Qed.

Lemma without_notin (ID : Z) (l : list Z) : ID ∉ l → without ID l = l.
Proof.
  induction l as [|x l IH]; [done|].
  intros Hnotin. unfold without in *. rewrite filter_cons.
  rewrite decide_True by (intros ->; apply Hnotin; left).
  f_equal. apply IH. intros Hin. apply Hnotin. by right.
Qed.

Lemma without_mid (ID : Z) (l1 l2 : list Z) :
  NoDup (l1 ++ ID :: l2) → without ID (l1 ++ ID :: l2) = l1 ++ l2.
Proof.
  intros (_ & Hdisj & [HID _]%NoDup_cons)%NoDup_app.
  unfold without. rewrite filter_app, filter_cons.
  rewrite decide_False by (intros Hne; by apply Hne).
  fold (without ID l1) (without ID l2).
  rewrite !without_notin; [done | done |].
  intros Hin. apply (Hdisj ID Hin). left.
Qed.

Lemma notin_without (ID : Z) (l : list Z) : ID ∉ without ID l.
Proof. unfold without. intros [Hne _]%list_elem_of_filter. by apply Hne. Qed.

Lemma concat_insert_cons (ll : list (list Z)) (i : nat) (l : list Z) (ID : Z) :
  ll !! i = Some l → concat (<[i := ID :: l]> ll) ≡ₚ ID :: concat ll.
Proof.
  revert i. induction ll as [|l0 ll IH]; intros i; [done|].
  destruct i as [|i]; simpl.
  - by intros [= ->].
  - intros Hl. rewrite (IH i Hl). by rewrite Permutation_middle.
Qed.

(** *** The two operations *)

(** An assignment [v[i].field = x] inside the vector. *)
Lemma vupdate_spec {A} (f : A → A) (v : list A) (i : Z) (a : A) :
  vget v i = Some a →
  ∃ v',
    vupdate f v i = Some v'
    ∧ length v' = length v
    ∧ ∀ x, vget v' x = if decide (x = i) then f <$> vget v x else vget v x.
Proof.
  intros Hget. exists (<[Z.to_nat i := f a]> v).
  destruct (vget_Some_range _ _ _ Hget) as [Hi Hlt].
  split; [by apply vupdate_Some|]. split; [by rewrite length_insert|].
  intros x. case_decide as Hx.
  - subst x. rewrite Hget. simpl. by eapply vget_insert_eq.
  - by apply vget_insert_ne.
Qed.

(** An assignment that is skipped because the index is [-1]. *)
Lemma no_update_spec {A} (f : A → A) (v : list A) (i : Z) :
  i = (-1)%Z →
  ∀ x, vget v x = if decide (x = i) then f <$> vget v x else vget v x.
Proof.
  intros -> x. case_decide as Hx; [|done].
  subst x. by rewrite vget_negative by lia.
Qed.

(** The residents of one cell: its chain, without repetition and
    without [-1]. *)
Lemma well_formed_cell (this : CGCells) residents (i : nat) l :
  well_formed this residents →
  residents !! i = Some l →
  ∃ cs,
    cells this !! i = Some cs
    ∧ chain (partCellData this) (Z.of_nat i) (-1) l (list_ cs)
    ∧ NoDup l
    ∧ ∀ x, x ∈ l → (0 ≤ x)%Z.
Proof.
  intros (Hlen & Hchains & Hnodup) Hl.
  destruct (lookup_lt_is_Some_2 (cells this) i) as [cs Hcs].
  { rewrite <- Hlen. by eapply lookup_lt_Some. }
  assert (chain (partCellData this) (Z.of_nat i) (-1) l (list_ cs)) as Hchain.
  { apply Hchains; by rewrite vget_of_nat. }
  exists cs. repeat split; try done.
  - by eapply NoDup_concat_lookup.
  - intros x Hx. by eapply chain_nonneg.
Qed.

(** [removeFromCell] unlinks a resident particle: the chains are the
    old ones without it, and its own entry is left as it was. *)
Lemma removeFromCell_unlinks (this : CGCells) residents ID entry :
  well_formed this residents →
  vget (partCellData this) ID = Some entry →
  ID ∈ concat residents →
  ∃ this',
    removeFromCell ID this = Some this'
    ∧ well_formed this' (without ID <$> residents)
    ∧ unlinked (partCellData this) (partCellData this') ID entry
    ∧ vget (partCellData this') ID = Some entry
    ∧ length (partCellData this') = length (partCellData this)
    ∧ set_list 0 <$> cells this' = set_list 0 <$> cells this.
Proof.
  intros Hwf Hentry Hin.
  apply elem_of_concat in Hin as (i & l & Hl & Hin).
  apply list_elem_of_split in Hin as (l1 & l2 & ->).
  destruct (well_formed_cell _ _ _ _ Hwf Hl)
    as (cs & Hcs & Hchain & Hnodup & Hnonneg).
  destruct (chain_mid _ _ _ _ _ _ _ _ Hchain Hentry) as (Hp & Hn & Hc & _).
  pose proof Hnodup as (Hnodup1 & Hdisj & [HID Hnodup2]%NoDup_cons)%NoDup_app.
  (* the neighbours of [ID] *)
  assert (prev entry = (-1)%Z ∧ l1 = []
          ∨ prev entry ∈ l1 ∧ prev entry ≠ (-1)%Z) as Hprev.
  { destruct (last l1) as [w|] eqn:Hlast; simpl in Hp.
    - right. rewrite Hp. split; [by apply last_Some_elem_of|].
      assert (0 ≤ w)%Z; [|lia].
      apply Hnonneg, elem_of_app. left. by apply last_Some_elem_of.
    - left. split; [done | by apply last_None]. }
  assert (next entry = (-1)%Z ∧ l2 = []
          ∨ next entry ∈ l2 ∧ next entry ≠ (-1)%Z) as Hnext.
  { destruct l2 as [|y l2]; simpl in Hn; [by left|].
    right. rewrite Hn. split; [left|].
    assert (0 ≤ y)%Z; [|lia].
    apply Hnonneg, elem_of_app. right. right. left. }
  assert (prev entry ≠ ID) as HpID.
  { destruct Hprev as [[Hm _]|[Hm _]].
    - pose proof (vget_Some_range _ _ _ Hentry). lia.
    - intros Heq. rewrite Heq in Hm. apply (Hdisj ID Hm). left. }
  assert (next entry ≠ ID) as HnID.
  { destruct Hnext as [[Hm _]|[Hm _]].
    - pose proof (vget_Some_range _ _ _ Hentry). lia.
    - intros Heq. rewrite Heq in Hm. done. }
  assert (prev entry = (-1)%Z ∨ prev entry ≠ next entry) as Hpn.
  { destruct Hprev as [[Hm _]|[Hm _]]; [by left|]. right.
    destruct Hnext as [[Hm' _]|[Hm' _]].
    - assert (0 ≤ prev entry)%Z by (apply Hnonneg, elem_of_app; by left). lia.
    - intros Heq. apply (Hdisj _ Hm). right. by rewrite Heq. }
  (* first assignment: to [partCellData] or to the head of the cell *)
  assert (∃ cs1 pcd1,
    (if decide (prev entry ≠ (-1)%Z)
     then pcd ← vupdate (set_next (next entry)) (partCellData this) (prev entry);
          Some (mkCGCells (cells this) pcd)
     else cs ← vupdate (set_list (next entry)) (cells this) (cell entry);
          Some (mkCGCells cs (partCellData this)))
    = Some (mkCGCells cs1 pcd1)
    ∧ length pcd1 = length (partCellData this)
    ∧ (∀ x, vget pcd1 x =
            if decide (x = prev entry)
            then set_next (next entry) <$> vget (partCellData this) x
            else vget (partCellData this) x)
    ∧ cs1 = match l1 with
            | [] => <[i := set_list (next entry) cs]> (cells this)
            | _ => cells this
            end) as (cs1 & pcd1 & Hstep1 & Hlen1 & Hpcd1 & Hcs1).
  { destruct Hprev as [[Hm ->]|[Hm Hne]].
    - rewrite decide_False by (intros Hne; by apply Hne).
      rewrite Hc. unfold vupdate. rewrite vget_of_nat, Hcs. simpl.
      rewrite Nat2Z.id. eexists _, _. split; [reflexivity|].
      split; [done|]. split; [|done]. by apply no_update_spec.
    - rewrite decide_True by done.
      destruct (chain_members _ _ _ _ _ (prev entry) Hchain)
        as (entry_p & Hgetp & _); [apply elem_of_app; by left|].
      destruct (vupdate_spec (set_next (next entry)) _ _ _ Hgetp)
        as (pcd1 & -> & Hlen1 & Hpcd1). simpl.
      eexists _, _. split; [reflexivity|]. split; [done|]. split; [done|].
      destruct l1; [by apply elem_of_nil in Hm | done]. }
  unfold removeFromCell. rewrite Hentry. simpl. rewrite Hstep1. simpl.
  assert (vget pcd1 ID = Some entry) as Hentry1.
  { rewrite Hpcd1. by rewrite decide_False by done. }
  rewrite Hentry1. simpl.
  (* second assignment *)
  assert (∃ pcd2,
    (if decide (next entry ≠ (-1)%Z)
     then pcd ← vupdate (set_prev (prev entry)) pcd1 (next entry);
          Some (mkCGCells cs1 pcd)
     else Some (mkCGCells cs1 pcd1))
    = Some (mkCGCells cs1 pcd2)
    ∧ length pcd2 = length pcd1
    ∧ (∀ x, vget pcd2 x =
            if decide (x = next entry)
            then set_prev (prev entry) <$> vget pcd1 x
            else vget pcd1 x)) as (pcd2 & Hstep2 & Hlen2 & Hpcd2).
  { destruct Hnext as [[Hm ->]|[Hm Hne]].
    - rewrite decide_False by (intros Hne; by apply Hne).
      eexists. split; [reflexivity|]. split; [done|]. by apply no_update_spec.
    - rewrite decide_True by done.
      destruct (chain_members _ _ _ _ _ (next entry) Hchain)
        as (entry_n & Hgetn & _); [apply elem_of_app; right; by right|].
      assert (is_Some (vget pcd1 (next entry))) as [entry_n1 Hgetn1].
      { rewrite Hpcd1. destruct (decide (next entry = prev entry));
          rewrite Hgetn; simpl; eauto. }
      destruct (vupdate_spec (set_prev (prev entry)) _ _ _ Hgetn1)
        as (pcd2 & -> & Hlen2 & Hpcd2). simpl.
      eexists. by split. }
  simpl in Hstep2. rewrite Hstep2.
  assert (unlinked (partCellData this) pcd2 ID entry) as Hun.
  { intros x Hx. rewrite Hpcd2, Hpcd1.
    destruct (decide (x = prev entry)) as [->|Hxp].
    - destruct (decide (prev entry = next entry)) as [Heq|]; [|done].
      destruct Hpn as [Hm|]; [|done].
      by rewrite (vget_negative _ (prev entry)) by lia.
    - done. }
  exists (mkCGCells cs1 pcd2). split; [done|]. simpl.
  split; [|split; [done|split; [|split]]].
  - (* well-formed *)
    destruct Hwf as (Hlen & Hchains & Hnodupall).
    split; [|split].
    + simpl. rewrite length_fmap, Hlen, Hcs1.
      destruct l1; [by rewrite length_insert | done].
    + simpl. intros c' cs' l' Hcs' Hl'.
      destruct (vget_Some_range _ _ _ Hl') as [Hc' _].
      unfold vget in Hl', Hcs'.
      rewrite decide_True in Hl' by done. rewrite decide_True in Hcs' by done.
      rewrite list_lookup_fmap in Hl'.
      destruct (residents !! Z.to_nat c') as [l0|] eqn:Hl0; [|done].
      simpl in Hl'. injection Hl' as <-.
      destruct (decide (Z.to_nat c' = i)) as [Hci|Hci].
      * (* the cell that held [ID] *)
        assert (c' = Z.of_nat i) as -> by lia.
        rewrite Nat2Z.id in *. assert (l0 = l1 ++ ID :: l2) as -> by congruence.
        rewrite (without_mid _ _ _ Hnodup).
        assert (list_ cs' = match l1 with
                            | [] => next entry
                            | _ => list_ cs
                            end) as ->.
        { rewrite Hcs1 in Hcs'. destruct l1.
          - rewrite list_lookup_insert_eq in Hcs' by (by eapply lookup_lt_Some).
            by injection Hcs' as <-.
          - congruence. }
        apply (chain_unlink _ _ _ _ _ Hentry Hun l1 l2 (-1)%Z (list_ cs)
                 Hchain Hnodup).
        intros Hm%Hnonneg. lia.
      * (* another cell *)
        assert (cells this !! Z.to_nat c' = Some cs') as Hcs0.
        { rewrite Hcs1 in Hcs'. destruct l1; [|done].
          by rewrite list_lookup_insert_ne in Hcs' by done. }
        assert (∀ x, x ∈ l1 ++ ID :: l2 → x ∉ l0) as Hapart.
        { intros x Hx Hx0. apply Hci. eapply NoDup_concat_unique; done. }
        assert (ID ∉ l0) as HID0
          by (apply Hapart, elem_of_app; right; left).
        rewrite (without_notin _ _ HID0).
        eapply (chain_unlink_other _ _ _ ID entry); try done.
        -- destruct Hprev as [[Hm _]|[Hm _]].
           ++ rewrite Hm. intros Hm0.
              assert (0 ≤ -1)%Z; [|lia].
              eapply (chain_nonneg (partCellData this)); [|exact Hm0].
              apply Hchains; unfold vget; by rewrite decide_True by done.
           ++ apply Hapart, elem_of_app. by left.
        -- destruct Hnext as [[Hm _]|[Hm _]].
           ++ rewrite Hm. intros Hm0.
              assert (0 ≤ -1)%Z; [|lia].
              eapply (chain_nonneg (partCellData this)); [|exact Hm0].
              apply Hchains; unfold vget; by rewrite decide_True by done.
           ++ apply Hapart, elem_of_app. right. by right.
        -- apply Hchains; unfold vget; by rewrite decide_True by done.
    + rewrite concat_without. unfold without. by apply NoDup_filter.
  - rewrite Hpcd2, Hpcd1. by rewrite !decide_False by done.
  - congruence.
  - rewrite Hcs1. destruct l1; [|done].
    rewrite list_fmap_insert. apply list_insert_id.
    rewrite list_lookup_fmap, Hcs. done.
Qed.

(** [addToCell] links a particle that is in no chain in front of the
    chain of cell [c]. *)
Lemma addToCell_links (this : CGCells) residents ID entry c l :
  well_formed this residents →
  vget (partCellData this) ID = Some entry →
  ID ∉ concat residents →
  vget residents c = Some l →
  ∃ this' cs,
    vget (cells this) c = Some cs
    ∧ addToCell ID c this = Some this'
    ∧ well_formed this' (<[Z.to_nat c := ID :: l]> residents)
    ∧ linked_in_front (partCellData this) (partCellData this') ID c (list_ cs)
    ∧ length (partCellData this') = length (partCellData this)
    ∧ set_list 0 <$> cells this' = set_list 0 <$> cells this.
Proof.
  intros Hwf Hentry Hnotin Hl.
  destruct (vget_Some_range _ _ _ Hl) as [Hc _].
  assert (residents !! Z.to_nat c = Some l) as Hli
    by (unfold vget in Hl; by rewrite decide_True in Hl by done).
  destruct (well_formed_cell _ _ _ _ Hwf Hli)
    as (cs & Hcs & Hchain & Hnodup & Hnonneg).
  rewrite Z2Nat.id in Hchain by done.
  assert (vget (cells this) c = Some cs) as Hcsv
    by (unfold vget; by rewrite decide_True by done).
  assert (ID ∉ l) as HIDl.
  { intros Hin. apply Hnotin, elem_of_concat. by exists (Z.to_nat c), l. }
  pose proof (chain_head _ _ _ _ _ Hchain) as Hhead.
  assert (list_ cs ≠ ID) as HheadID.
  { rewrite Hhead. destruct l as [|y l']; simpl.
    - pose proof (vget_Some_range _ _ _ Hentry). lia.
    - intros ->. apply HIDl. left. }
  (* [partCellData[cells[cellID].list].prev = ID], if there is a head *)
  assert (∃ pcd1,
    (if decide (list_ cs ≠ (-1)%Z)
     then vupdate (set_prev ID) (partCellData this) (list_ cs)
     else Some (partCellData this)) = Some pcd1
    ∧ length pcd1 = length (partCellData this)
    ∧ ∀ x, vget pcd1 x =
           if decide (x = list_ cs)
           then set_prev ID <$> vget (partCellData this) x
           else vget (partCellData this) x) as (pcd1 & Hstep1 & Hlen1 & Hpcd1).
  { destruct l as [|y l']; simpl in Hhead.
    - rewrite decide_False by (intros Hne; by apply Hne).
      eexists. split; [done|]. split; [done|]. by apply no_update_spec.
    - destruct (chain_members _ _ _ _ _ y Hchain) as (entry_y & Hgety & _);
        [left|].
      rewrite decide_True by (specialize (Hnonneg y ltac:(left)); lia).
      rewrite Hhead. by apply (vupdate_spec _ _ _ entry_y). }
  assert (vget pcd1 ID = Some entry) as Hentry1.
  { rewrite Hpcd1. rewrite decide_False by done. done. }
  destruct (vupdate_spec (set_next (list_ cs)) _ _ _ Hentry1)
    as (pcd2 & Hstep2 & Hlen2 & Hpcd2).
  assert (vget pcd2 ID = Some (set_next (list_ cs) entry)) as Hentry2.
  { rewrite Hpcd2, decide_True by done. by rewrite Hentry1. }
  destruct (vupdate_spec (set_list ID) _ _ _ Hcsv)
    as (cs' & Hstep3 & Hlen3 & Hcells').
  destruct (vupdate_spec (set_prev (-1)) _ _ _ Hentry2)
    as (pcd3 & Hstep4 & Hlen4 & Hpcd3).
  assert (vget pcd3 ID = Some (set_prev (-1) (set_next (list_ cs) entry)))
    as Hentry3.
  { rewrite Hpcd3, decide_True by done. by rewrite Hentry2. }
  destruct (vupdate_spec (set_cell c) _ _ _ Hentry3)
    as (pcd4 & Hstep5 & Hlen5 & Hpcd4).
  assert (linked_in_front (partCellData this) pcd4 ID c (list_ cs)) as Hlinked.
  { split.
    - rewrite Hpcd4, decide_True by done. by rewrite Hentry3.
    - intros x Hx. rewrite Hpcd4, Hpcd3, Hpcd2, Hpcd1.
      by rewrite !(decide_False (P := x = ID)) by done. }
  exists (mkCGCells cs' pcd4), cs. split; [done|]. split.
  { unfold addToCell. rewrite Hcsv. simpl. rewrite Hstep1. simpl.
    rewrite Hstep2. simpl. rewrite Hstep3. simpl. rewrite Hstep4. simpl.
    by rewrite Hstep5. }
  simpl. split; [|split; [done|split]].
  - destruct Hwf as (Hlen & Hchains & Hnodupall).
    split; [|split]; simpl.
    + rewrite length_insert. congruence.
    + intros c' cs0 l0 Hcs0 Hl0.
      destruct (decide (c' = c)) as [->|Hcc].
      * assert (l0 = ID :: l) as ->.
        { unfold vget in Hl0. rewrite decide_True in Hl0 by done.
          rewrite list_lookup_insert_eq in Hl0 by (by eapply lookup_lt_Some).
          congruence. }
        assert (list_ cs0 = ID) as ->.
        { rewrite Hcells', decide_True, Hcsv in Hcs0 by done.
          by injection Hcs0 as <-. }
        by eapply chain_link.
      * rewrite Hcells', decide_False in Hcs0 by done.
        destruct (vget_Some_range _ _ _ Hcs0) as [Hc' _].
        assert (residents !! Z.to_nat c' = Some l0) as Hl0'.
        { unfold vget in Hl0. rewrite decide_True in Hl0 by done.
          rewrite list_lookup_insert_ne in Hl0 by lia. done. }
        assert (vget residents c' = Some l0) as Hl0v
          by (unfold vget; by rewrite decide_True by done).
        assert (∀ x, x ∈ l → x ∉ l0) as Hapart.
        { intros x Hx Hx0.
          assert (Z.to_nat c = Z.to_nat c') by (eapply NoDup_concat_unique; done).
          lia. }
        eapply (chain_link_other _ _ c c' ID); [done| | |by apply Hchains].
        -- intros Hin. apply Hnotin, elem_of_concat.
           by exists (Z.to_nat c'), l0.
        -- rewrite Hhead. destruct l as [|y l']; simpl.
           ++ intros Hm0. assert (0 ≤ -1)%Z; [|lia].
              eapply (chain_nonneg (partCellData this)); [|exact Hm0].
              by apply Hchains.
           ++ apply Hapart. left.
    + rewrite (concat_insert_cons _ _ _ _ Hli). by apply NoDup_cons.
  - congruence.
  - unfold vupdate in Hstep3. rewrite Hcsv in Hstep3. simpl in Hstep3.
    injection Hstep3 as <-.
    rewrite list_fmap_insert. apply list_insert_id.
    rewrite list_lookup_fmap, Hcs. done.
Qed.

Lemma all_resident_elsewhere (ll : list (list Z)) (ID x : Z) (i : nat) (l : list Z) :
  (without ID <$> ll) !! i = Some l →
  x ≠ ID → x ∈ concat ll →
  x ∈ concat (<[i := ID :: l]> (without ID <$> ll)).
Proof.
  intros Hl Hx Hin. rewrite (concat_insert_cons _ _ _ _ Hl).
  right. rewrite concat_without. unfold without.
  apply list_elem_of_filter. by split.
Qed.

(** C3. In a well-formed cell-list state in which every particle is
    resident, [removeFromCell ID] followed by [addToCell ID c] runs
    without leaving the vectors and gives a well-formed state again,
    with every particle resident. [ID] is now the first particle of
    cell [c]; every chain holds the particles it held before, [ID] apart,
    in their old order, so every other particle is in the cell and at the
    place among the others where it was. The [cell] field of every other
    particle is untouched, and so is the whole entry of every particle
    other than the old neighbours of [ID] and the old head of [c]; of the
    cells only the heads change. *)
Theorem removeFromCell_addToCell_well_formed
    (this : CGCells) (residents : list (list Z)) (ID c : Z) (entry : partCEntry) :
  well_formed this residents →
  all_resident this residents →
  vget (partCellData this) ID = Some entry →
  is_Some (vget (cells this) c) →
  ∃ this1 this2 head,
    removeFromCell ID this = Some this1
    ∧ addToCell ID c this1 = Some this2
    ∧ well_formed this2 (moved ID c residents)
    ∧ all_resident this2 (moved ID c residents)
    ∧ vget (moved ID c residents) c
      = (λ l, ID :: without ID l) <$> vget residents c
    ∧ (∀ c', c' ≠ c →
         vget (moved ID c residents) c' = without ID <$> vget residents c')
    ∧ vget (partCellData this2) ID = Some (mkPartCEntry (-1) head c)
    ∧ (∀ x, x ≠ ID →
         cell <$> vget (partCellData this2) x
         = cell <$> vget (partCellData this) x)
    ∧ (∀ x, x ≠ ID → x ≠ prev entry → x ≠ next entry → x ≠ head →
         vget (partCellData this2) x = vget (partCellData this) x)
    ∧ set_list 0 <$> cells this2 = set_list 0 <$> cells this.
Proof.
  intros Hwf Hall Hentry Hc.
  destruct (removeFromCell_unlinks _ _ _ _ Hwf Hentry (Hall _ _ Hentry))
    as (this1 & Hremove & Hwf1 & Hun & Hentry1 & Hlen1 & Hcells1).
  assert (is_Some (vget (without ID <$> residents) c)) as [l Hl].
  { destruct Hwf as (Hlen & _).
    apply (vget_same_length (cells this)); [|done].
    by rewrite length_fmap. }
  assert (ID ∉ concat (without ID <$> residents)) as Hnotin.
  { rewrite concat_without. apply notin_without. }
  destruct (addToCell_links _ _ _ _ _ _ Hwf1 Hentry1 Hnotin Hl)
    as (this2 & cs1 & Hcs1 & Hadd & Hwf2 & [HID Hlinked] & Hlen2 & Hcells2).
  assert (moved ID c residents = <[Z.to_nat c := ID :: l]> (without ID <$> residents))
    as Hmoved by (unfold moved; by rewrite Hl).
  destruct (vget_Some_range _ _ _ Hl) as [Hc0 Hclt].
  assert ((without ID <$> residents) !! Z.to_nat c = Some l) as Hli
    by (unfold vget in Hl; by rewrite decide_True in Hl by done).
  exists this1, this2, (list_ cs1). rewrite Hmoved.
  split; [done|]. split; [done|]. split; [done|]. split; [|split; [|split]].
  - intros x entry_x Hx. destruct (decide (x = ID)) as [->|Hne].
    + rewrite (concat_insert_cons _ _ _ _ Hli). left.
    + apply all_resident_elsewhere; [done | done |].
      assert (is_Some (vget (partCellData this) x)) as [entry_x0 Hx0].
      { apply (vget_same_length (partCellData this2)); [congruence | eauto]. }
      by eapply Hall.
  - unfold vget. rewrite !decide_True by done.
    rewrite list_lookup_insert_eq by done.
    rewrite list_lookup_fmap in Hli.
    destruct (residents !! Z.to_nat c); simpl in *; congruence.
  - intros c' Hc'. unfold vget. case_decide; [|done].
    rewrite list_lookup_insert_ne by lia. by rewrite list_lookup_fmap.
  - split; [done|]. split; [|split; [|congruence]].
    + intros x Hx. rewrite (Hlinked x Hx), (Hun x Hx).
      repeat case_decide; by destruct (vget (partCellData this) x).
    + intros x Hx Hp Hn Hh. rewrite (Hlinked x Hx), (Hun x Hx).
      by rewrite !decide_False by done.
Qed.

Lemma demo_cells_well_formed : well_formed demo_cells demo_residents.
Proof.
  split; [reflexivity|]. split.
  - intros c cs l Hcs Hl.
    destruct (vget_Some_range _ _ _ Hl) as [Hc Hlt]. simpl in Hlt.
    assert (c = 0 ∨ c = 1)%Z as [-> | ->] by lia;
      injection Hcs as <-; injection Hl as <-; simpl;
      repeat first [reflexivity | split | eexists].
  - simpl. compute_done.
Qed.

(** Two cells holding the chains 2, 0 and 1: particle 2 moves to the
    front of the second cell. *)
Lemma removeFromCell_addToCell_well_formed_witness :
  ∃ this1 this2,
    removeFromCell 2 demo_cells = Some this1
    ∧ addToCell 2 1 this1 = Some this2
    ∧ well_formed this2 [[0%Z]; [2%Z; 1%Z]].
Proof.
  destruct (removeFromCell_addToCell_well_formed demo_cells demo_residents
              2 1 (mkPartCEntry (-1) 0 0))
    as (this1 & this2 & head & Hremove & Hadd & Hwf & _).
  - exact demo_cells_well_formed.
  - intros ID entry Hentry.
    destruct (vget_Some_range _ _ _ Hentry) as [HID Hlt]. simpl in Hlt.
    assert (ID = 0 ∨ ID = 1 ∨ ID = 2)%Z as [-> | [-> | ->]] by lia;
      simpl; compute_done.
  - reflexivity.
  - by eexists.
  - exists this1, this2. split; [done|]. split; [done|]. exact Hwf.
Defined.

(** The links of the old neighbours are the ones that change: particle 0
    came after particle 2 in its chain and is the head of it once 2 has
    left, with no particle before it. *)
Example removeFromCell_relinks_neighbour :
  prev <$> vget (partCellData demo_cells) 0 = Some 2%Z
  ∧ (this ← removeFromCell 2 demo_cells;
     entry ← vget (partCellData this) 0;
     Some (prev entry)) = Some (-1)%Z
  ∧ (this ← removeFromCell 2 demo_cells;
     this ← addToCell 2 1 this;
     Some (list_ <$> cells this, partCellData this))
    = Some ([0; 2]%Z,
            [mkPartCEntry (-1) (-1) 0; mkPartCEntry 2 (-1) 1;
             mkPartCEntry (-1) 1 1]).
Proof. repeat split. Qed.

(** *** The links of the old neighbours *)

(** Every particle of [demo_cells] is in a cell. *)
Lemma demo_cells_all_resident : all_resident demo_cells demo_residents.
Proof.
  intros ID entry Hentry.
  destruct (vget_Some_range _ _ _ Hentry) as [HID Hlt]. simpl in Hlt.
  assert (ID = 0 ∨ ID = 1 ∨ ID = 2)%Z as [-> | [-> | ->]] by lia;
    simpl; compute_done.
Qed.

(** The links of the other particles do not all stay. In the
    well-formed state [demo_cells], with every particle resident,
    particle 2 is moved from the front of the first cell to the front of
    the second. Particle 0, its old successor, loses its predecessor
    and particle 1, the old head of the second cell, gains one, although
    neither is the particle moved; both stay in their cells. *)
Lemma removeFromCell_addToCell_links_counterexample :
  well_formed demo_cells demo_residents
  ∧ all_resident demo_cells demo_residents
  ∧ ∃ this1 this2,
      removeFromCell 2 demo_cells = Some this1
      ∧ addToCell 2 1 this1 = Some this2
      ∧ vget (partCellData demo_cells) 0 = Some (mkPartCEntry 2 (-1) 0)
      ∧ vget (partCellData this2) 0 = Some (mkPartCEntry (-1) (-1) 0)
      ∧ vget (partCellData demo_cells) 1 = Some (mkPartCEntry (-1) (-1) 1)
      ∧ vget (partCellData this2) 1 = Some (mkPartCEntry 2 (-1) 1)
      ∧ ¬ (∀ x, x ≠ 2%Z →
             vget (partCellData this2) x = vget (partCellData demo_cells) x).
Proof.
  split; [exact demo_cells_well_formed|].
  split; [exact demo_cells_all_resident|].
  eexists _, _. split; [reflexivity|]. split; [reflexivity|].
  split_and!; try reflexivity.
  intros Hsame. by specialize (Hsame 0%Z ltac:(lia)).
Qed.

(** *** Each operation on its own *)

(** The head of a cell is the first particle of its chain, [-1] for an
    empty cell. *)
Lemma well_formed_head (this : CGCells) residents (i : nat) cs :
  well_formed this residents →
  cells this !! i = Some cs →
  ∃ l, residents !! i = Some l ∧ list_ cs = default (-1)%Z (list.head l).
Proof.
  intros Hwf Hcs.
  destruct (lookup_lt_is_Some_2 residents i) as [l Hl].
  { destruct Hwf as (-> & _). by eapply lookup_lt_Some. }
  destruct (well_formed_cell _ _ _ _ Hwf Hl) as (cs' & Hcs' & Hchain & _).
  exists l. split; [done|].
  assert (cs' = cs) as -> by congruence.
  by eapply chain_head.
Qed.



Lemma vget_lookup {A} (v : list A) (i : Z) (a : A) :
  vget v i = Some a → v !! Z.to_nat i = Some a.
Proof. unfold vget. by case_decide. Qed.


(** A state with a particle that is in no cell: the two cells hold the
    chains 0 and 1, and particle 2 still carries the links it had when
    it was in front of 0. *)
Definition demo_cells_free : CGCells :=
  mkCGCells [demo_cell 0; demo_cell 1]
    [mkPartCEntry (-1) (-1) 0; mkPartCEntry (-1) (-1) 1; mkPartCEntry (-1) 0 0].

Lemma demo_cells_free_well_formed : well_formed demo_cells_free [[0]; [1]]%Z.
Proof.
  split; [reflexivity|]. split.
  - intros c cs l Hcs Hl.
    destruct (vget_Some_range _ _ _ Hl) as [Hc Hlt]. simpl in Hlt.
    assert (c = 0 ∨ c = 1)%Z as [-> | ->] by lia;
      injection Hcs as <-; injection Hl as <-; simpl;
      repeat first [reflexivity | split | eexists].
  - simpl. compute_done.
Qed.





(** X19. [addToCell ID c] puts a particle that is in no chain at the
    front of cell [c]: [ID] becomes the head of [c], its entry names no
    predecessor, the old head (or [-1] for an empty cell) as successor
    and [c] as cell, and the state is well formed with [ID] in front of
    the old chain. The heads of the other cells stay, and of the other
    entries only the one of the old head changes. *)
Theorem addToCell_puts_in_front
    (this : CGCells) (residents : list (list Z)) (ID c : Z) (entry : partCEntry)
    (l : list Z) :
  well_formed this residents →
  vget (partCellData this) ID = Some entry →
  ID ∉ concat residents →
  vget residents c = Some l →
  ∃ this',
    addToCell ID c this = Some this'
    ∧ well_formed this' (<[Z.to_nat c := ID :: l]> residents)
    ∧ list_ <$> vget (cells this') c = Some ID
    ∧ vget (partCellData this') ID
      = Some (mkPartCEntry (-1) (default (-1)%Z (list.head l)) c)
    ∧ (∀ c', c' ≠ c →
         list_ <$> vget (cells this') c' = list_ <$> vget (cells this) c')
    ∧ (∀ x, x ≠ ID → x ≠ default (-1)%Z (list.head l) →
         vget (partCellData this') x = vget (partCellData this) x).
Proof.
  intros Hwf Hentry Hnotin Hl.
  pose proof (vget_lookup _ _ _ Hl) as Hli.
  destruct (vget_Some_range _ _ _ Hl) as [Hc Hclt].
  destruct (addToCell_links _ _ _ _ _ _ Hwf Hentry Hnotin Hl)
    as (this' & cs & Hcs & Hadd & Hwf' & [HID Hlinked] & Hlen' & Hcells').
  destruct (well_formed_head _ _ _ _ Hwf (vget_lookup _ _ _ Hcs))
    as (l0 & Hl0 & Hhead).
  assert (l0 = l) as -> by congruence.
  assert (length (cells this') = length (cells this)) as Hlen.
  { by rewrite <- (length_fmap (set_list 0) (cells this')), Hcells', length_fmap. }
  exists this'. split_and!; try done.
  - destruct (lookup_lt_is_Some_2 (cells this') (Z.to_nat c)) as [cs' Hcs'].
    { rewrite Hlen. by eapply lookup_lt_Some, vget_lookup. }
    destruct (well_formed_head _ _ _ _ Hwf' Hcs') as (l' & Hl' & Hhead').
    rewrite list_lookup_insert_eq in Hl' by (by eapply lookup_lt_Some).
    injection Hl' as <-.
    unfold vget. rewrite decide_True by done.
    rewrite Hcs'. simpl. by rewrite Hhead'.
  - by rewrite <- Hhead.
  - intros c' Hc'. unfold vget. case_decide; [|done].
    destruct (cells this' !! Z.to_nat c') as [cs'|] eqn:Hcs';
      destruct (cells this !! Z.to_nat c') as [cs0|] eqn:Hcs0; simpl.
    + destruct (well_formed_head _ _ _ _ Hwf' Hcs') as (l' & Hl' & ->).
      destruct (well_formed_head _ _ _ _ Hwf Hcs0) as (l1 & Hl1 & ->).
      rewrite list_lookup_insert_ne in Hl' by lia. congruence.
    + apply lookup_lt_Some in Hcs'. apply lookup_ge_None in Hcs0. lia.
    + apply lookup_lt_Some in Hcs0. apply lookup_ge_None in Hcs'. lia.
    + done.
  - intros x Hx Hh. rewrite (Hlinked x Hx).
    rewrite decide_False; [done | congruence].
Qed.

Lemma addToCell_puts_in_front_witness :
  ∃ this',
    addToCell 2 1 demo_cells_free = Some this'
    ∧ list_ <$> vget (cells this') 1 = Some 2%Z
    ∧ vget (partCellData this') 2 = Some (mkPartCEntry (-1) 1 1).
Proof.
  destruct (addToCell_puts_in_front demo_cells_free [[0]; [1]]%Z
              2 1 (mkPartCEntry (-1) 0 0) [1%Z])
    as (this' & Hadd & _ & Hhead & Hentry & _).
  - exact demo_cells_free_well_formed.
  - reflexivity.
  - simpl. compute_done.
  - reflexivity.
  - exists this'. by split_and!.
Defined.

End Cells.
